(** * Graph search engine of [homeworks/hw0/search.py]

    A shallow embedding of the four search functions of [search.py]
    ([depthFirstSearch], [breadthFirstSearch], [uniformCostSearch],
    [aStarSearch]) and of the problem interface they consume, followed by
    the properties of the engine: path validity, least cost, return of the
    loops, the bookkeeping of the visited set and of the best-cost map.

    Conventions of the embedding:
    - states are any type with decidable equality that can be hashed
      ([Countable]); the Python [set] of visited states is a [gset], the
      Python [dict] of best costs a [gmap];
    - costs, priorities and heuristic values are integers ([Z]);
    - a Python exception is a value of [exn]; an operation that can raise
      returns a [result];
    - the [while] loop of each function is a step function on the loop
      state (frontier, visited, log of [getSuccessors] calls) iterated by
      [run] under a fuel bound; [OutOfFuel] means the loop was still
      running after that many iterations. *)

From stdpp Require Import base option list gmap sets.
From Stdlib Require Import ZArith Lia.

(** ** Exceptions and results *)

Inductive exn := IndexError | KeyError.

Inductive result (A : Type) :=
  | Ok (a : A)
  | Err (e : exn).
Arguments Ok {A} a.
Arguments Err {A} e.

Definition bind_result {A B} (m : result A) (k : A → result B) : result B :=
  match m with
  | Ok a => k a
  | Err e => Err e
  end.

Notation "'do' x <- m ; k" := (bind_result m (λ x, k))
  (at level 10, x name, m at level 100, k at level 200,
   format "'[' 'do'  x  <-  m ;  '/' k ']'").

(** The body of a [for x in l:] statement that updates an accumulator and
    may raise. *)
Fixpoint for_each {A B} (body : B → A → result B) (l : list A) (acc : B)
  : result B :=
  match l with
  | [] => Ok acc
  | x :: l' => do acc' <- body acc x; for_each body l' acc'
  end.

(** ** Frontier containers *)

(** [search.py] imports its frontiers from [util]; that module is not
    among the sources at hand, and the three classes are modelled on the
    contracts that the spec gives them. In each of them a removal from an
    empty container raises. *)

(** Modelled from the spec: [util.Stack], whose module is missing. LIFO:
    remove returns the most recently inserted item. *)
Module Stack.
Definition t (A : Type) := list A.
Definition empty {A} : t A := [].
Definition push {A} (item : A) (s : t A) : t A := item :: s.
Definition isEmpty {A} (s : t A) : bool :=
  match s with [] => true | _ :: _ => false end.
Definition pop {A} (s : t A) : result (A * t A) :=
  match s with
  | [] => Err IndexError
  | item :: s' => Ok (item, s')
  end.
End Stack.

(** Modelled from the spec: [util.Queue], whose module is missing. FIFO:
    remove returns the earliest inserted item, the head of the list. *)
Module Queue.
Definition t (A : Type) := list A.
Definition empty {A} : t A := [].
Definition push {A} (item : A) (q : t A) : t A := q ++ [item].
Definition isEmpty {A} (q : t A) : bool :=
  match q with [] => true | _ :: _ => false end.
Definition pop {A} (q : t A) : result (A * t A) :=
  match q with
  | [] => Err IndexError
  | item :: q' => Ok (item, q')
  end.
End Queue.

(** Modelled from the spec: [util.PriorityQueue], whose module is missing.
    Min-first: remove returns the item of smallest priority, ties broken
    by insertion order. Entries are kept in insertion order, each with
    its priority. *)
Module PriorityQueue.
Definition t (A : Type) := list (Z * A).
Definition empty {A} : t A := [].
Definition push {A} (item : A) (priority : Z) (q : t A) : t A :=
  q ++ [(priority, item)].
Definition isEmpty {A} (q : t A) : bool :=
  match q with [] => true | _ :: _ => false end.

(** [extract_min q] splits [q] into its first entry of smallest priority
    and the remaining entries, still in insertion order. *)
Fixpoint extract_min {A} (q : t A) : option ((Z * A) * t A) :=
  match q with
  | [] => None
  | e :: q' =>
      match extract_min q' with
      | None => Some (e, [])
      | Some (m, rest) =>
          if bool_decide (e.1 ≤ m.1)%Z then Some (e, q')
          else Some (m, e :: rest)
      end
  end.

Definition pop {A} (q : t A) : result (A * t A) :=
  match extract_min q with
  | None => Err IndexError
  | Some ((_, item), rest) => Ok (item, rest)
  end.
End PriorityQueue.

(** ** The loop runner *)

(** What one iteration of a search loop does: leave the function with a
    path, go on with a new loop state, or raise. [Return] also carries the
    log of the [getSuccessors] calls made so far. *)
Inductive outcome (St State Action : Type) :=
  | Return (path : list Action) (calls : list State)
  | Continue (st : St)
  | Raise (e : exn).
Arguments Return {St State Action} path calls.
Arguments Continue {St State Action} st.
Arguments Raise {St State Action} e.

(** What a call of a search function does within [fuel] iterations. *)
Inductive answer (State Action : Type) :=
  | Returned (path : list Action) (calls : list State)
  | Raised (e : exn)
  | OutOfFuel.
Arguments Returned {State Action} path calls.
Arguments Raised {State Action} e.
Arguments OutOfFuel {State Action}.

Fixpoint run {St State Action} (step : St → outcome St State Action)
    (fuel : nat) (st : St) : answer State Action :=
  match fuel with
  | O => OutOfFuel
  | S fuel' =>
      match step st with
      | Return path calls => Returned path calls
      | Continue st' => run step fuel' st'
      | Raise e => Raised e
      end
  end.

(** [steps step st st']: the loop started in state [st] is in state [st']
    after some number of iterations. *)
Inductive steps {St State Action} (step : St → outcome St State Action)
  : St → St → Prop :=
  | steps_refl st : steps step st st
  | steps_next st st' st'' :
      step st = Continue st' → steps step st' st'' → steps step st st''.

(** Lexicographic order on triples of naturals, the measure of the loops. *)
Definition lex3 (a b : nat * nat * nat) : Prop :=
  a.1.1 < b.1.1
  ∨ (a.1.1 = b.1.1 ∧ (a.1.2 < b.1.2 ∨ (a.1.2 = b.1.2 ∧ a.2 < b.2))).

Section Engine.
Context {State Action : Type} `{Countable State} `{EqDecision Action}.

(** ** The problem interface (class [SearchProblem]) *)

Definition successor : Type := State * Action * Z.

Record SearchProblem := {
  getStartState : State;
  isGoalState : State → bool;
  getSuccessors : State → list successor;
  getCostOfActions : list Action → Z
}.

Definition heuristic : Type := State → SearchProblem → Z.

(** ** Loop states *)

(** Uninformed searches: frontier entries are [(state, path)]. *)
Record ustate := {
  u_frontier : list (State * list Action);
  u_visited : gset State;
  u_calls : list State
}.

(** Cost-aware searches: frontier entries are [(state, path, cost)] and
    [visited] maps a state to the cost recorded at its last expansion. *)
Record cstate := {
  c_frontier : PriorityQueue.t (State * list Action * Z);
  c_visited : gmap State Z;
  c_calls : list State
}.

(** ** [depthFirstSearch] *)

Definition dfs_step (problem : SearchProblem) (st : ustate)
  : outcome ustate State Action :=
  if Stack.isEmpty (u_frontier st) then Return [] (u_calls st)
  else
    match Stack.pop (u_frontier st) with
    | Err e => Raise e
    | Ok ((currentState, path), frontier) =>
        if isGoalState problem currentState then Return path (u_calls st)
        else if bool_decide (currentState ∉ u_visited st) then
          Continue
            {| u_frontier :=
                 foldl (λ fr '(nextState, action, _),
                          Stack.push (nextState, path ++ [action]) fr)
                       frontier (getSuccessors problem currentState);
               u_visited := {[currentState]} ∪ u_visited st;
               u_calls := u_calls st ++ [currentState] |}
        else
          Continue
            {| u_frontier := frontier;
               u_visited := u_visited st;
               u_calls := u_calls st |}
    end.

Definition dfs_init (problem : SearchProblem) : ustate :=
  {| u_frontier := Stack.push (getStartState problem, []) Stack.empty;
     u_visited := ∅;
     u_calls := [] |}.

Definition depthFirstSearch (fuel : nat) (problem : SearchProblem)
  : answer State Action :=
  run (dfs_step problem) fuel (dfs_init problem).

(** ** [breadthFirstSearch] *)

Definition bfs_step (problem : SearchProblem) (st : ustate)
  : outcome ustate State Action :=
  if Queue.isEmpty (u_frontier st) then Return [] (u_calls st)
  else
    match Queue.pop (u_frontier st) with
    | Err e => Raise e
    | Ok ((currentState, path), frontier) =>
        if isGoalState problem currentState then Return path (u_calls st)
        else if bool_decide (currentState ∉ u_visited st) then
          Continue
            {| u_frontier :=
                 foldl (λ fr '(nextState, action, _),
                          Queue.push (nextState, path ++ [action]) fr)
                       frontier (getSuccessors problem currentState);
               u_visited := {[currentState]} ∪ u_visited st;
               u_calls := u_calls st ++ [currentState] |}
        else
          Continue
            {| u_frontier := frontier;
               u_visited := u_visited st;
               u_calls := u_calls st |}
    end.

Definition bfs_init (problem : SearchProblem) : ustate :=
  {| u_frontier := Queue.push (getStartState problem, []) Queue.empty;
     u_visited := ∅;
     u_calls := [] |}.

Definition breadthFirstSearch (fuel : nat) (problem : SearchProblem)
  : answer State Action :=
  run (bfs_step problem) fuel (bfs_init problem).

(** ** The test [s not in visited or cost < visited[s]] *)

(** [visited[s]]: raises [KeyError] on a missing key. *)
Definition getitem (visited : gmap State Z) (s : State) : result Z :=
  match visited !! s with
  | Some v => Ok v
  | None => Err KeyError
  end.

(** Python's [or] evaluates its right operand only when the left one is
    false. *)
Definition improves (visited : gmap State Z) (s : State) (cost : Z)
  : result bool :=
  if bool_decide (s ∉ dom visited) then Ok true
  else do v <- getitem visited s; Ok (bool_decide (cost < v)%Z).

(** ** [uniformCostSearch] *)

Definition ucs_step (problem : SearchProblem) (st : cstate)
  : outcome cstate State Action :=
  if PriorityQueue.isEmpty (c_frontier st) then Return [] (c_calls st)
  else
    match PriorityQueue.pop (c_frontier st) with
    | Err e => Raise e
    | Ok ((currentState, path, currentCost), frontier) =>
        if isGoalState problem currentState then Return path (c_calls st)
        else
          match improves (c_visited st) currentState currentCost with
          | Err e => Raise e
          | Ok false =>
              Continue
                {| c_frontier := frontier;
                   c_visited := c_visited st;
                   c_calls := c_calls st |}
          | Ok true =>
              let visited := <[currentState := currentCost]> (c_visited st) in
              match
                for_each
                  (λ fr '(nextState, action, cost),
                     let newCost := (currentCost + cost)%Z in
                     do b <- improves visited nextState newCost;
                     Ok (if b : bool
                         then PriorityQueue.push
                                (nextState, path ++ [action], newCost)
                                newCost fr
                         else fr))
                  (getSuccessors problem currentState) frontier
              with
              | Err e => Raise e
              | Ok frontier' =>
                  Continue
                    {| c_frontier := frontier';
                       c_visited := visited;
                       c_calls := c_calls st ++ [currentState] |}
              end
          end
    end.

Definition ucs_init (problem : SearchProblem) : cstate :=
  {| c_frontier :=
       PriorityQueue.push (getStartState problem, [], 0%Z) 0%Z
         PriorityQueue.empty;
     c_visited := ∅;
     c_calls := [] |}.

Definition uniformCostSearch (fuel : nat) (problem : SearchProblem)
  : answer State Action :=
  run (ucs_step problem) fuel (ucs_init problem).

(** ** [nullHeuristic] and [aStarSearch] *)

Definition nullHeuristic : heuristic := λ _ _, 0%Z.

Definition astar_step (problem : SearchProblem) (h : heuristic)
    (st : cstate) : outcome cstate State Action :=
  if PriorityQueue.isEmpty (c_frontier st) then Return [] (c_calls st)
  else
    match PriorityQueue.pop (c_frontier st) with
    | Err e => Raise e
    | Ok ((currentState, path, currentCost), frontier) =>
        if isGoalState problem currentState then Return path (c_calls st)
        else
          match improves (c_visited st) currentState currentCost with
          | Err e => Raise e
          | Ok false =>
              Continue
                {| c_frontier := frontier;
                   c_visited := c_visited st;
                   c_calls := c_calls st |}
          | Ok true =>
              let visited := <[currentState := currentCost]> (c_visited st) in
              match
                for_each
                  (λ fr '(nextState, action, cost),
                     let newCost := (currentCost + cost)%Z in
                     let priority := (newCost + h nextState problem)%Z in
                     do b <- improves visited nextState newCost;
                     Ok (if b : bool
                         then PriorityQueue.push
                                (nextState, path ++ [action], newCost)
                                priority fr
                         else fr))
                  (getSuccessors problem currentState) frontier
              with
              | Err e => Raise e
              | Ok frontier' =>
                  Continue
                    {| c_frontier := frontier';
                       c_visited := visited;
                       c_calls := c_calls st ++ [currentState] |}
              end
          end
    end.

Definition astar_init (problem : SearchProblem) (h : heuristic) : cstate :=
  let startState := getStartState problem in
  {| c_frontier :=
       PriorityQueue.push (startState, [], 0%Z)
         (0 + h startState problem)%Z PriorityQueue.empty;
     c_visited := ∅;
     c_calls := [] |}.

Definition aStarSearch (fuel : nat) (problem : SearchProblem)
    (h : heuristic) : answer State Action :=
  run (astar_step problem h) fuel (astar_init problem h).

(** ** Vocabulary of the properties *)

(** The successor triple of [succs] that carries [action]. *)
Fixpoint triple_for (action : Action) (succs : list successor)
  : option (State * Z) :=
  match succs with
  | [] => None
  | (nextState, action', cost) :: succs' =>
      if decide (action' = action) then Some (nextState, cost)
      else triple_for action succs'
  end.

(** Replaying [actions] from [s] through [getSuccessors]: the state
    reached and the sum of the step costs, or [None] when some action is
    not offered. *)
Fixpoint replay (problem : SearchProblem) (s : State)
    (actions : list Action) : option (State * Z) :=
  match actions with
  | [] => Some (s, 0%Z)
  | action :: actions' =>
      match triple_for action (getSuccessors problem s) with
      | None => None
      | Some (nextState, cost) =>
          match replay problem nextState actions' with
          | None => None
          | Some (final, total) => Some (final, (cost + total)%Z)
          end
      end
  end.

Inductive reachable (problem : SearchProblem) : State → Prop :=
  | reach_start : reachable problem (getStartState problem)
  | reach_step s nextState action cost :
      reachable problem s →
      (nextState, action, cost) ∈ getSuccessors problem s →
      reachable problem nextState.

Definition finite_reachable (problem : SearchProblem) : Prop :=
  ∃ universe : gset State, ∀ s, reachable problem s → s ∈ universe.

Definition nonneg_costs (problem : SearchProblem) : Prop :=
  ∀ s nextState action cost,
    reachable problem s →
    (nextState, action, cost) ∈ getSuccessors problem s →
    (0 ≤ cost)%Z.

Definition goal_reachable (problem : SearchProblem) : Prop :=
  ∃ s, reachable problem s ∧ isGoalState problem s = true.

(** A well-behaved problem source: from a reachable state no two
    successor triples carry the same action, and [getCostOfActions]
    gives the sum of the step costs of a sequence of legal moves. *)
Definition deterministic (problem : SearchProblem) : Prop :=
  ∀ s, reachable problem s →
    NoDup ((λ t : successor, t.1.2) <$> getSuccessors problem s).

Definition cost_coherent (problem : SearchProblem) : Prop :=
  ∀ actions final total,
    replay problem (getStartState problem) actions = Some (final, total) →
    getCostOfActions problem actions = total.

(** [actions] leads from [s] to a goal state at total cost [total]. *)
Definition solves (problem : SearchProblem) (s : State)
    (actions : list Action) (total : Z) : Prop :=
  ∃ final, replay problem s actions = Some (final, total)
           ∧ isGoalState problem final = true.

(** [total] is the least cost of an action sequence from the start
    state to a goal state. *)
Definition min_goal_cost (problem : SearchProblem) (total : Z) : Prop :=
  (∃ actions, solves problem (getStartState problem) actions total)
  ∧ ∀ actions total',
      solves problem (getStartState problem) actions total' →
      (total ≤ total')%Z.

(** The two properties of the glossary, and the part of the heuristic
    contract (values at least zero) that optimality rests on. *)
Definition nonneg_at_goals (problem : SearchProblem) (h : heuristic)
  : Prop :=
  ∀ s, reachable problem s → isGoalState problem s = true →
    (0 ≤ h s problem)%Z.

Definition admissible (problem : SearchProblem) (h : heuristic) : Prop :=
  ∀ s actions total,
    reachable problem s → solves problem s actions total →
    (h s problem ≤ total)%Z.

Definition consistent (problem : SearchProblem) (h : heuristic) : Prop :=
  ∀ s nextState action cost,
    reachable problem s →
    (nextState, action, cost) ∈ getSuccessors problem s →
    (h s problem ≤ cost + h nextState problem)%Z.

(** Two problems that differ at most in their step costs. *)
Definition strip (t : successor) : State * Action := t.1.

Definition same_but_costs (p1 p2 : SearchProblem) : Prop :=
  getStartState p1 = getStartState p2
  ∧ (∀ s, isGoalState p1 s = isGoalState p2 s)
  ∧ (∀ s, strip <$> getSuccessors p1 s = strip <$> getSuccessors p2 s).

End Engine.

Arguments SearchProblem : clear implicits.
Arguments heuristic : clear implicits.
Arguments successor : clear implicits.
Arguments ustate State Action {_ _}.
Arguments cstate State Action {_ _}.

(** ** The loops, iteration by iteration *)

(** What the proofs below say about the loops: the step relations that the
    step functions implement, the invariants of the loop states and the
    measures that decrease. *)
Section Loops.
Context {State Action : Type} `{Countable State} `{EqDecision Action}.
Variable problem : SearchProblem State Action.
Variable h : heuristic State Action.
Abbreviation entry := (State * list Action)%type.
Abbreviation centry := (Z * (State * list Action * Z))%type.
Implicit Types (s : State) (path : list Action) (visited : gmap State Z)
  (g cost : Z).

(** *** Depth-first and breadth-first search *)

Section UninformedLoop.
Implicit Types (st : ustate State Action).

(** The frontier entry that the loop body builds for a successor. *)
Definition extend path (t : State * Action * Z) : entry :=
  (t.1.1, path ++ [t.1.2]).

(** One iteration, up to the order of the frontier: what [dfs_step] and
    [bfs_step] have in common. *)
Inductive ustep st : outcome (ustate State Action) State Action → Prop :=
  | ustep_empty :
      u_frontier st = [] →
      ustep st (Return [] (u_calls st))
  | ustep_goal s path rest :
      u_frontier st ≡ₚ (s, path) :: rest →
      isGoalState problem s = true →
      ustep st (Return path (u_calls st))
  | ustep_skip s path rest :
      u_frontier st ≡ₚ (s, path) :: rest →
      isGoalState problem s = false →
      s ∈ u_visited st →
      ustep st (Continue {| u_frontier := rest;
                            u_visited := u_visited st;
                            u_calls := u_calls st |})
  | ustep_expand s path rest frontier' :
      u_frontier st ≡ₚ (s, path) :: rest →
      isGoalState problem s = false →
      s ∉ u_visited st →
      frontier' ≡ₚ rest ++ (extend path <$> getSuccessors problem s) →
      ustep st (Continue {| u_frontier := frontier';
                            u_visited := {[s]} ∪ u_visited st;
                            u_calls := u_calls st ++ [s] |}).

(** Both searches start from the same loop state. *)
Definition u_init : ustate State Action :=
  {| u_frontier := [(getStartState problem, [])];
     u_visited := ∅;
     u_calls := [] |}.

(** Frontier and visited set hold reachable states only. *)
Definition u_reach st : Prop :=
  (∀ s path, (s, path) ∈ u_frontier st → reachable problem s)
  ∧ (∀ s, s ∈ u_visited st → reachable problem s).

(** Every frontier path leads from the start state to its state. *)
Definition u_valid st : Prop :=
  ∀ s path, (s, path) ∈ u_frontier st →
    ∃ g, replay problem (getStartState problem) path = Some (s, g).

(** Nothing reachable is lost: the start state and the successors of the
    visited states are visited or wait in the frontier; no visited state
    is a goal. *)
Definition u_complete st : Prop :=
  (getStartState problem ∈ u_visited st
   ∨ getStartState problem ∈ (u_frontier st).*1)
  ∧ ∀ s, s ∈ u_visited st →
      isGoalState problem s = false
      ∧ ∀ t, t ∈ getSuccessors problem s →
          t.1.1 ∈ u_visited st ∨ t.1.1 ∈ (u_frontier st).*1.

(** The log of [getSuccessors] calls has no repetition and lists visited
    states only. *)
Definition u_logged st : Prop :=
  NoDup (u_calls st) ∧ ∀ s, s ∈ u_calls st → s ∈ u_visited st.

(** The measure: reachable states not yet visited, then frontier size. *)
Definition u_measure (universe : gset State) st : nat * nat * nat :=
  (size (universe ∖ u_visited st), 0, length (u_frontier st)).

End UninformedLoop.

(** *** Uniform-cost and A* search *)

Section CostAwareLoop.
Implicit Types (st : cstate State Action) (e : centry)
  (frontier : list centry).

Definition e_state e : State := e.2.1.1.
Definition e_path e : list Action := e.2.1.2.
Definition e_cost e : Z := e.2.2.

(** The value of the test [s not in visited or cost < visited[s]]. *)
Definition better visited s cost : bool :=
  match visited !! s with
  | None => true
  | Some v => bool_decide (cost < v)%Z
  end.

(** The frontier entry that the loop body of [aStarSearch] builds for a
    successor, and the entries it inserts for a list of successors: those
    whose state is not in the (updated) map, or is there with a larger
    cost. *)
Definition child path g (t : State * Action * Z) : centry :=
  ((g + t.2 + h t.1.1 problem)%Z, (t.1.1, path ++ [t.1.2], (g + t.2)%Z)).

Definition pushed visited path g (succs : list (State * Action * Z))
  : list centry :=
  child path g
    <$> filter (λ t, better visited t.1.1 (g + t.2) = true) succs.

(** One iteration of [aStarSearch], up to the order of the frontier. *)
Inductive cstep st : outcome (cstate State Action) State Action → Prop :=
  | cstep_empty :
      c_frontier st = [] →
      cstep st (Return [] (c_calls st))
  | cstep_goal priority s path g rest :
      c_frontier st ≡ₚ (priority, (s, path, g)) :: rest →
      (∀ e, e ∈ c_frontier st → (priority ≤ e.1)%Z) →
      isGoalState problem s = true →
      cstep st (Return path (c_calls st))
  | cstep_skip priority s path g rest :
      c_frontier st ≡ₚ (priority, (s, path, g)) :: rest →
      isGoalState problem s = false →
      better (c_visited st) s g = false →
      cstep st (Continue {| c_frontier := rest;
                            c_visited := c_visited st;
                            c_calls := c_calls st |})
  | cstep_expand priority s path g rest :
      c_frontier st ≡ₚ (priority, (s, path, g)) :: rest →
      isGoalState problem s = false →
      better (c_visited st) s g = true →
      cstep st
        (Continue
           {| c_frontier :=
                rest ++ pushed (<[s:=g]> (c_visited st)) path g
                          (getSuccessors problem s);
              c_visited := <[s:=g]> (c_visited st);
              c_calls := c_calls st ++ [s] |}).

(** Frontier and best-cost map hold reachable states only. *)
Definition c_reach st : Prop :=
  (∀ e, e ∈ c_frontier st → reachable problem (e_state e))
  ∧ (∀ s v, c_visited st !! s = Some v → reachable problem s).

(** Accumulated and recorded costs are non-negative. *)
Definition c_nonneg st : Prop :=
  (∀ e, e ∈ c_frontier st → (0 ≤ e_cost e)%Z)
  ∧ (∀ s v, c_visited st !! s = Some v → (0 ≤ v)%Z).

(** Every frontier path leads from the start state to its state, its
    accumulated cost is the cost of that path, and its priority is that
    cost plus the heuristic of its state. *)
Definition c_valid st : Prop :=
  ∀ e, e ∈ c_frontier st →
    replay problem (getStartState problem) (e_path e)
      = Some (e_state e, e_cost e)
    ∧ e.1 = (e_cost e + h (e_state e) problem)%Z.

(** Nothing reachable is lost, and no recorded state is a goal. *)
Definition c_complete st : Prop :=
  (getStartState problem ∈ dom (c_visited st)
   ∨ getStartState problem ∈ e_state <$> c_frontier st)
  ∧ ∀ s, s ∈ dom (c_visited st) →
      isGoalState problem s = false
      ∧ ∀ t, t ∈ getSuccessors problem s →
          t.1.1 ∈ dom (c_visited st) ∨ t.1.1 ∈ e_state <$> c_frontier st.

(** [covers n frontier budget]: some frontier entry can still be
    completed into a solution of total cost at most [budget], by fewer
    than [n] further actions. *)
Definition covers (n : nat) frontier (budget : Z) : Prop :=
  ∃ e actions total,
    e ∈ frontier ∧ solves problem (e_state e) actions total
    ∧ length actions < n ∧ (e_cost e + total ≤ budget)%Z.

(** For every solution from the start state, and for every solution
    that continues from a recorded state at its recorded cost, the
    frontier holds an entry that does at least as well. *)
Definition c_opt st : Prop :=
  (∀ actions total,
     solves problem (getStartState problem) actions total →
     covers (S (length actions)) (c_frontier st) total)
  ∧ (∀ s v actions total,
       c_visited st !! s = Some v → solves problem s actions total →
       covers (length actions) (c_frontier st) (v + total)).

(** The sum of the recorded costs. *)
Definition recorded visited : nat :=
  map_fold (λ _ v acc, Z.to_nat v + acc) 0 visited.

(** The measure: reachable states without a recorded cost, then the sum
    of the recorded costs, then the frontier size. *)
Definition c_measure (universe : gset State) st : nat * nat * nat :=
  (size (universe ∖ dom (c_visited st)),
   recorded (c_visited st),
   length (c_frontier st)).

End CostAwareLoop.
End Loops.

(** ** Statements of the spec, as worded *)

Section Stated.
Context {State Action : Type} `{Countable State} `{EqDecision Action}.

(** "Every successor triple of an expanded state yields a new frontier
    entry", for one iteration of [uniformCostSearch] from [st]. *)
Definition ucs_pushes_every_successor (problem : SearchProblem State Action)
    (st : cstate State Action) : Prop :=
  ∀ currentState path currentCost frontier st',
    PriorityQueue.pop (c_frontier st)
      = Ok ((currentState, path, currentCost), frontier) →
    isGoalState problem currentState = false →
    improves (c_visited st) currentState currentCost = Ok true →
    ucs_step problem st = Continue st' →
    ∀ nextState action cost,
      (nextState, action, cost) ∈ getSuccessors problem currentState →
      ((currentCost + cost)%Z,
       (nextState, path ++ [action], (currentCost + cost)%Z))
        ∈ c_frontier st'.

End Stated.

(** ** Example problems *)

(** States of the four-node graph of the spec, and the moves ([Directions]
    of [game.py]) that label its edges. *)
Inductive node := nStart | nA | nB | nGoal.
Inductive move := North | South | East | West.

#[global] Instance node_eq_dec : EqDecision node.
Proof. solve_decision. Defined.
#[global] Instance move_eq_dec : EqDecision move.
Proof. solve_decision. Defined.

Definition node_code (n : node) : nat :=
  match n with nStart => 0 | nA => 1 | nB => 2 | nGoal => 3 end.
Definition node_of_code (c : nat) : node :=
  match c with 0 => nStart | 1 => nA | 2 => nB | _ => nGoal end.

#[global] Instance node_countable : Countable node.
Proof.
  apply (inj_countable' node_code node_of_code). by intros [].
Defined.

(** [getCostOfActions] of the example problems: the sum of the step costs
    along the moves, and a large penalty for an illegal move. *)
Fixpoint walk_cost (succs : node → list (node * move * Z)) (s : node)
    (actions : list move) : Z :=
  match actions with
  | [] => 0%Z
  | action :: actions' =>
      match triple_for action (succs s) with
      | None => 999999%Z
      | Some (nextState, cost) => (cost + walk_cost succs nextState actions')%Z
      end
  end.

Definition graph_problem (start : node) (goal : node → bool)
    (succs : node → list (node * move * Z)) : SearchProblem node move :=
  {| getStartState := start;
     isGoalState := goal;
     getSuccessors := succs;
     getCostOfActions := walk_cost succs start |}.

Definition is_nGoal (s : node) : bool :=
  match s with nGoal => true | _ => false end.

(** The scenario of the spec: start→A (1)→Goal (5), start→B (2)→Goal (1). *)
Definition diamond_successors (s : node) : list (node * move * Z) :=
  match s with
  | nStart => [(nA, North, 1%Z); (nB, South, 2%Z)]
  | nA => [(nGoal, East, 5%Z)]
  | nB => [(nGoal, East, 1%Z)]
  | nGoal => []
  end.

Definition diamond : SearchProblem node move :=
  graph_problem nStart is_nGoal diamond_successors.

(** An admissible and consistent heuristic for [diamond]. *)
Definition diamond_h : heuristic node move :=
  λ s _, match s with nStart => 2 | nA => 3 | nB => 1 | nGoal => 0 end%Z.

(** The same graph with other step costs. *)
Definition diamond_flat : SearchProblem node move :=
  graph_problem nStart is_nGoal
    (λ s, match s with
          | nStart => [(nA, North, 7%Z); (nB, South, 7%Z)]
          | nA => [(nGoal, East, 7%Z)]
          | nB => [(nGoal, East, 7%Z)]
          | nGoal => []
          end).

(** The start state is a goal. *)
Definition at_goal : SearchProblem node move :=
  graph_problem nGoal is_nGoal diamond_successors.

(** A cycle start→A→start and a self-loop on the start state; the goal
    lies in a component that the start state does not reach. *)
Definition cyclic : SearchProblem node move :=
  graph_problem nStart is_nGoal
    (λ s, match s with
          | nStart => [(nA, North, 1%Z); (nStart, West, 1%Z)]
          | nA => [(nStart, South, 1%Z)]
          | nB => [(nGoal, East, 1%Z)]
          | nGoal => []
          end).

(** One state with a self-loop of negative cost. The interface of
    [getSuccessors] has step costs of at least zero: this problem lies
    outside it, and shows what the searches rest on it for. *)
Definition negloop : SearchProblem node move :=
  graph_problem nStart is_nGoal
    (λ s, match s with
          | nStart => [(nStart, West, (-1)%Z)]
          | _ => []
          end).

(** Two goal states, [nA] at cost 10 and [nGoal] at cost 2, and a
    function that is admissible and consistent but negative at [nA].
    The heuristic contract has values of at least zero: [eager_h] lies
    outside it, and shows what [aStarSearch] rests on it for. *)
Definition is_nA_or_nGoal (s : node) : bool :=
  match s with nA | nGoal => true | _ => false end.

Definition two_goals : SearchProblem node move :=
  graph_problem nStart is_nA_or_nGoal
    (λ s, match s with
          | nStart => [(nA, North, 10%Z); (nB, South, 1%Z)]
          | nB => [(nGoal, East, 1%Z)]
          | _ => []
          end).

Definition eager_h : heuristic node move :=
  λ s _, match s with nStart => -90 | nA => -100 | _ => 0 end%Z.

(** A graph and a heuristic under which [aStarSearch] expands [nB] twice:
    first through start→B (5), then through start→A→B (2). *)
Definition detour : SearchProblem node move :=
  graph_problem nStart is_nGoal
    (λ s, match s with
          | nStart => [(nA, North, 1%Z); (nB, South, 5%Z)]
          | nA => [(nB, South, 1%Z)]
          | nB => [(nGoal, East, 10%Z)]
          | nGoal => []
          end).

Definition detour_h : heuristic node move :=
  λ s _, match s with nA => 100 | nGoal => 200 | _ => 0 end%Z.

(** The loop state of [aStarSearch detour detour_h] after three
    iterations: [nB] is recorded at cost 5 and waits in the frontier at
    cost 2. *)
Definition detour_state : cstate node move :=
  {| c_frontier :=
       [(215%Z, (nGoal, [South; East], 15%Z));
        (2%Z, (nB, [North; South], 2%Z))];
     c_visited := <[nA := 1%Z]> (<[nB := 5%Z]> (<[nStart := 0%Z]> ∅));
     c_calls := [nStart; nB; nA] |}.

(** The loop state after the fourth iteration, which expands [nB] again. *)
Definition detour_state_next : cstate node move :=
  {| c_frontier :=
       [(215%Z, (nGoal, [South; East], 15%Z));
        (212%Z, (nGoal, [North; South; East], 12%Z))];
     c_visited := <[nB := 2%Z]> (c_visited detour_state);
     c_calls := [nStart; nB; nA; nB] |}.

(** ** [tinyMazeSearch] and the abbreviations *)

(** The fixed sequence of moves that [tinyMazeSearch] returns for every
    problem. *)
Definition tinyMazeSearch {State : Type} (problem : SearchProblem State move)
  : list move :=
  let s := South in
  let w := West in
  [s; s; w; s; w; w; s; w].

Abbreviation bfs := breadthFirstSearch (only parsing).
Abbreviation dfs := depthFirstSearch (only parsing).
Abbreviation astar := aStarSearch (only parsing).
Abbreviation ucs := uniformCostSearch (only parsing).

(** ** Further vocabulary *)

Section Routes.
Context {State Action : Type} `{Countable State} `{EqDecision Action}.

(** The states that replaying [actions] from [s] passes through, [s]
    first and the state reached last. *)
Fixpoint route (problem : SearchProblem State Action) (s : State)
    (actions : list Action) : option (list State) :=
  match actions with
  | [] => Some [s]
  | action :: actions' =>
      match triple_for action (getSuccessors problem s) with
      | None => None
      | Some (nextState, _) =>
          match route problem nextState actions' with
          | None => None
          | Some states => Some (s :: states)
          end
      end
  end.

(** The same problem with every step cost replaced by 1: the cost of an
    action sequence is its length. *)
Definition unit_costs (problem : SearchProblem State Action)
  : SearchProblem State Action :=
  {| getStartState := getStartState problem;
     isGoalState := isGoalState problem;
     getSuccessors := λ s, (λ t, (t.1, 1%Z)) <$> getSuccessors problem s;
     getCostOfActions := λ actions, Z.of_nat (length actions) |}.

(** The same problem with [target] as its only goal state. *)
Definition with_target (problem : SearchProblem State Action)
    (target : State) : SearchProblem State Action :=
  {| getStartState := getStartState problem;
     isGoalState := λ s, bool_decide (s = target);
     getSuccessors := getSuccessors problem;
     getCostOfActions := getCostOfActions problem |}.

(** A frontier entry of [breadthFirstSearch] seen as a cost-aware entry:
    its cost is the length of its path. *)
Definition leveled (e : State * list Action)
  : Z * (State * list Action * Z) :=
  (Z.of_nat (length e.2), (e.1, e.2, Z.of_nat (length e.2))).

(** The queue of [breadthFirstSearch] holds the entries of one level,
    then entries of the next level; every visited state has a level, not
    above that of the queue; and the frontier covers, level for cost,
    every solution of the problem with unit costs. *)
Definition bfs_levels (problem : SearchProblem State Action)
    (st : ustate State Action) : Prop :=
  ∃ (levels : gmap State Z) (level : nat)
    (now next : list (State * list Action)),
    u_frontier st = now ++ next
    ∧ (∀ e, e ∈ now → length e.2 = level)
    ∧ (∀ e, e ∈ next → length e.2 = S level)
    ∧ (∀ s, s ∈ u_visited st → is_Some (levels !! s))
    ∧ (∀ s v, levels !! s = Some v → (v ≤ Z.of_nat level)%Z)
    ∧ (∀ actions total,
         solves (unit_costs problem) (getStartState problem) actions total →
         covers (unit_costs problem) (S (length actions))
                (leveled <$> u_frontier st) total)
    ∧ (∀ s v actions total,
         levels !! s = Some v →
         solves (unit_costs problem) s actions total →
         covers (unit_costs problem) (length actions)
                (leveled <$> u_frontier st) (v + total)).

(** [v] is the least cost of an action sequence from the start state to
    [target]. *)
Definition least_cost_to (problem : SearchProblem State Action)
    (target : State) (v : Z) : Prop :=
  (∃ path,
     replay problem (getStartState problem) path = Some (target, v))
  ∧ ∀ actions total,
      replay problem (getStartState problem) actions = Some (target, total) →
      (v ≤ total)%Z.

(** Every recorded cost is a least cost; and for a state without record
    the frontier covers every way to it, as [c_opt] says of the goals. *)
Definition c_exact (problem : SearchProblem State Action)
    (st : cstate State Action) : Prop :=
  ∀ target,
    (c_visited st !! target = None →
       (∀ actions total,
          solves (with_target problem target) (getStartState problem)
            actions total →
          covers (with_target problem target) (S (length actions))
            (c_frontier st) total)
       ∧ (∀ s v actions total,
            c_visited st !! s = Some v →
            solves (with_target problem target) s actions total →
            covers (with_target problem target) (length actions)
              (c_frontier st) (v + total)))
    ∧ (∀ v, c_visited st !! target = Some v →
         least_cost_to problem target v).
End Routes.

(** ** The loop state after some iterations *)

(** [after step n st]: the state of the loop started in [st] after [n]
    iterations, or the state in which it returned or raised before. *)
Fixpoint after {St State Action} (step : St → outcome St State Action)
    (n : nat) (st : St) : St :=
  match n with
  | O => st
  | S n' =>
      match step st with
      | Continue st' => after step n' st'
      | _ => st
      end
  end.

(** * Properties *)

(** Case analysis on an iteration that goes on: the popped state is
    skipped, or expanded. *)
Ltac ustep_cases Hstep :=
  inversion Hstep
    as [| |s path rest Hperm Hg Hin|s path rest fr' Hperm Hg Hnotin Hfr'];
  subst.

Ltac cstep_cases Hstep :=
  inversion Hstep
    as [| |p s path g rest Hperm Hg Hb|p s path g rest Hperm Hg Hb];
  subst.

(** ** The loop runner *)

Section RunFacts.
Context {St State Action : Type}.
Implicit Types (step : St → outcome St State Action) (st : St).

Lemma run_returned step fuel st path calls :
  run step fuel st = Returned path calls →
  ∃ st', steps step st st' ∧ step st' = Return path calls.
Proof.
  revert st. induction fuel as [|fuel IH]; intros st; simpl; [done|].
  destruct (step st) as [path' calls'|st'|e] eqn:Hstep; try done.
  - intros [= -> ->]. exists st. split; [constructor | done].
  - intros (st'' & Hsteps & Hret)%IH.
    exists st''. split; [by eapply steps_next | done].
Qed.


Lemma steps_invariant step (I : St → Prop) st st' :
  (∀ st1 st2, I st1 → step st1 = Continue st2 → I st2) →
  I st → steps step st st' → I st'.
Proof. intros Hpres HI Hsteps. induction Hsteps; eauto. Qed.

Lemma run_ext step1 step2 fuel st :
  (∀ st', step1 st' = step2 st') →
  run step1 fuel st = run step2 fuel st.
Proof.
  intros Hext. revert st. induction fuel as [|fuel IH]; intros st; [done|].
  simpl. rewrite Hext. destruct (step2 st); auto.
Qed.

Lemma lex3_wf : well_founded lex3.
Proof.
  intros [[a b] c]. revert b c.
  induction a as [a IHa] using lt_wf_ind. intros b.
  induction b as [b IHb] using lt_wf_ind. intros c.
  induction c as [c IHc] using lt_wf_ind.
  constructor. intros [[a' b'] c']. unfold lex3. simpl.
  intros [Ha | [-> [Hb | [-> Hc]]]]; auto.
Qed.

(** A loop whose iterations decrease a measure under an invariant, and
    never raise, returns. *)
Lemma run_terminates step (I : St → Prop) (μ : St → nat * nat * nat) :
  (∀ st st', I st → step st = Continue st' → I st' ∧ lex3 (μ st') (μ st)) →
  (∀ st e, step st ≠ Raise e) →
  ∀ st, I st → ∃ fuel path calls, run step fuel st = Returned path calls.
Proof.
  intros Hdec Hsafe st.
  remember (μ st) as m eqn:Hm. revert st Hm.
  induction (lex3_wf m) as [m _ IH]. intros st -> HI.
  destruct (step st) as [path calls|st'|e] eqn:Hstep.
  - exists 1, path, calls. simpl. by rewrite Hstep.
  - destruct (Hdec _ _ HI Hstep) as [HI' Hlt].
    destruct (IH _ Hlt st' eq_refl HI') as (fuel & path & calls & Hrun).
    exists (S fuel), path, calls. simpl. by rewrite Hstep.
  - by destruct (Hsafe st e).
Qed.
End RunFacts.

(** ** The containers *)

Section ContainerFacts.
Context {A : Type}.

Lemma extract_min_None (q : PriorityQueue.t A) :
  PriorityQueue.extract_min q = None → q = [].
Proof.
  destruct q as [|e q]; [done|]. simpl.
  destruct (PriorityQueue.extract_min q) as [[m rest]|]; [|done].
  by case_bool_decide.
Qed.

Lemma extract_min_Some (q : PriorityQueue.t A) m rest :
  PriorityQueue.extract_min q = Some (m, rest) →
  q ≡ₚ m :: rest ∧ ∀ e, e ∈ q → (m.1 ≤ e.1)%Z.
Proof.
  revert m rest. induction q as [|e q IH]; intros m rest; simpl; [done|].
  destruct (PriorityQueue.extract_min q) as [[m' rest']|] eqn:Hq.
  - destruct (IH _ _ eq_refl) as [Hperm Hmin].
    case_bool_decide as Hle; intros [= <- <-].
    + split; [done|]. intros e' [->|Hin]%elem_of_cons; [lia|].
      specialize (Hmin _ Hin). lia.
    + split.
      * rewrite Hperm. apply Permutation_swap.
      * intros e' [->|Hin]%elem_of_cons; [lia | by apply Hmin].
  - apply extract_min_None in Hq as ->. intros [= <- <-].
    split; [done|]. by intros e' ->%list_elem_of_singleton.
Qed.

Lemma pq_pop_Err (q : PriorityQueue.t A) e :
  PriorityQueue.pop q = Err e → PriorityQueue.isEmpty q = true.
Proof.
  unfold PriorityQueue.pop.
  destruct (PriorityQueue.extract_min q) as [[[k x] rest]|] eqn:Hq; [done|].
  by apply extract_min_None in Hq as ->.
Qed.

Lemma pq_pop_Ok (q : PriorityQueue.t A) item rest :
  PriorityQueue.pop q = Ok (item, rest) →
  ∃ priority,
    q ≡ₚ (priority, item) :: rest ∧ ∀ e, e ∈ q → (priority ≤ e.1)%Z.
Proof.
  unfold PriorityQueue.pop.
  destruct (PriorityQueue.extract_min q) as [[[k x] rest']|] eqn:Hq; [|done].
  intros [= <- <-]. exists k. by apply extract_min_Some in Hq.
Qed.

Lemma isEmpty_true (q : list A) : Stack.isEmpty q = true → q = [].
Proof. by destruct q. Qed.
End ContainerFacts.

(** ** Replay and reachability *)

Section ReplayFacts.
Context {State Action : Type} `{Countable State} `{EqDecision Action}.
Variable problem : SearchProblem State Action.
Implicit Types (s : State) (path : list Action).

Lemma triple_for_elem action (succs : list (State * Action * Z)) s cost :
  triple_for action succs = Some (s, cost) → (s, action, cost) ∈ succs.
Proof.
  induction succs as [|[[s' a'] c'] succs IH]; simpl; [done|].
  case_decide as Ha.
  - intros [= -> ->]. subst. by left.
  - intros ?. right. auto.
Qed.

Lemma triple_for_NoDup action (succs : list (State * Action * Z)) s cost :
  NoDup ((λ t : State * Action * Z, t.1.2) <$> succs) →
  (s, action, cost) ∈ succs →
  triple_for action succs = Some (s, cost).
Proof.
  induction succs as [|[[s' a'] c'] succs IH]; simpl.
  - by intros _ ?%elem_of_nil.
  - intros [Hnotin Hnodup]%NoDup_cons [[= -> -> ->]|Hin]%elem_of_cons.
    + by rewrite decide_True.
    + rewrite decide_False; [by apply IH|].
      intros ->. apply Hnotin.
      by apply (list_elem_of_fmap_2 (λ t : State * Action * Z, t.1.2)
                  _ (s, action, cost)).
Qed.

Lemma replay_app s path path' mid g :
  replay problem s path = Some (mid, g) →
  replay problem s (path ++ path') =
    match replay problem mid path' with
    | None => None
    | Some (final, total) => Some (final, (g + total)%Z)
    end.
Proof.
  revert s g. induction path as [|a path IH]; intros s g; simpl.
  - intros [= -> <-]. destruct (replay problem mid path') as [[? ?]|]; [|done].
    do 2 f_equal.
  - destruct (triple_for a (getSuccessors problem s)) as [[s1 c1]|]; [|done].
    destruct (replay problem s1 path) as [[s2 c2]|] eqn:Hs1; [|done].
    intros [= -> <-]. rewrite (IH _ _ Hs1).
    destruct (replay problem mid path') as [[? ?]|]; [|done].
    do 2 f_equal. lia.
Qed.

Lemma replay_snoc s path mid g action nextState cost :
  replay problem s path = Some (mid, g) →
  triple_for action (getSuccessors problem mid) = Some (nextState, cost) →
  replay problem s (path ++ [action]) = Some (nextState, (g + cost)%Z).
Proof.
  intros Hpath Hstep. rewrite (replay_app _ _ _ _ _ Hpath). simpl.
  rewrite Hstep. do 2 f_equal. lia.
Qed.

Lemma replay_reachable s path final total :
  reachable problem s →
  replay problem s path = Some (final, total) →
  reachable problem final.
Proof.
  revert s total. induction path as [|a path IH]; intros s total Hs; simpl.
  - by intros [= <- _].
  - destruct (triple_for a (getSuccessors problem s)) as [[s1 c1]|] eqn:Ha;
      [|done].
    destruct (replay problem s1 path) as [[s2 c2]|] eqn:Hs1; [|done].
    intros [= <- _]. eapply IH; [|done].
    eapply reach_step; [done|]. by apply triple_for_elem.
Qed.

(** Under determinism every reachable state is reached by replaying some
    action sequence from the start state. *)
Lemma reachable_replay s :
  deterministic problem →
  reachable problem s →
  ∃ path g, replay problem (getStartState problem) path = Some (s, g).
Proof.
  intros Hdet. induction 1 as [|s s' a c Hs (path & g & IH) Hin].
  - by exists [], 0%Z.
  - exists (path ++ [a]), (g + c)%Z.
    eapply replay_snoc; [done|]. apply triple_for_NoDup; auto.
Qed.

Lemma goal_reachable_solves :
  deterministic problem →
  goal_reachable problem →
  ∃ actions total, solves problem (getStartState problem) actions total.
Proof.
  intros Hdet (s & Hs & Hgoal).
  destruct (reachable_replay _ Hdet Hs) as (path & g & Hpath).
  exists path, g, s. done.
Qed.
End ReplayFacts.

(** Marking one more state leaves strictly fewer states to visit. *)
Lemma difference_grow `{Countable K} (universe visited : gset K) (k : K) :
  k ∈ universe → k ∉ visited →
  universe ∖ ({[k]} ∪ visited) ⊂ universe ∖ visited.
Proof.
  intros Hk Hnew. split.
  - intros x. rewrite !elem_of_difference, not_elem_of_union. tauto.
  - intros Hsub. assert (k ∈ universe ∖ ({[k]} ∪ visited)) as Hin.
    { apply Hsub, elem_of_difference. done. }
    apply elem_of_difference in Hin as [_ Hin].
    apply Hin, elem_of_union. left. by apply elem_of_singleton.
Qed.

(** ** Depth-first and breadth-first search *)

Section Uninformed.
Context {State Action : Type} `{Countable State} `{EqDecision Action}.
Variable problem : SearchProblem State Action.
Implicit Types (s : State) (path : list Action) (st : ustate State Action).
Abbreviation entry := (State * list Action)%type.

Lemma stack_pushes path (succs : list (State * Action * Z))
    (frontier : list entry) :
  foldl (λ fr '(nextState, action, _),
           Stack.push (nextState, path ++ [action]) fr) frontier succs
  ≡ₚ frontier ++ (extend path <$> succs).
Proof.
  revert frontier. induction succs as [|[[s a] c] succs IH]; intros frontier.
  - by rewrite app_nil_r.
  - simpl. rewrite IH. unfold Stack.push, extend. simpl.
    by rewrite Permutation_middle.
Qed.

Lemma queue_pushes path (succs : list (State * Action * Z))
    (frontier : list entry) :
  foldl (λ fr '(nextState, action, _),
           Queue.push (nextState, path ++ [action]) fr) frontier succs
  = frontier ++ (extend path <$> succs).
Proof.
  revert frontier. induction succs as [|[[s a] c] succs IH]; intros frontier.
  - by rewrite app_nil_r.
  - simpl. rewrite IH. unfold Queue.push, extend. simpl.
    by rewrite <- app_assoc.
Qed.

Lemma dfs_ustep st : ustep problem st (dfs_step problem st).
Proof.
  unfold dfs_step.
  destruct (u_frontier st) as [|[s path] rest] eqn:Hfr; simpl.
  - by constructor.
  - destruct (isGoalState problem s) eqn:Hgoal.
    + apply (ustep_goal problem st s path rest); [by rewrite Hfr | done].
    + case_bool_decide as Hvis.
      * apply (ustep_expand problem st s path rest); [by rewrite Hfr | done..|].
        apply stack_pushes.
      * apply (ustep_skip problem st s path rest); [by rewrite Hfr | done..].
Qed.

Lemma bfs_ustep st : ustep problem st (bfs_step problem st).
Proof.
  unfold bfs_step.
  destruct (u_frontier st) as [|[s path] rest] eqn:Hfr; simpl.
  - by constructor.
  - destruct (isGoalState problem s) eqn:Hgoal.
    + apply (ustep_goal problem st s path rest); [by rewrite Hfr | done].
    + case_bool_decide as Hvis.
      * apply (ustep_expand problem st s path rest); [by rewrite Hfr | done..|].
        by rewrite queue_pushes.
      * apply (ustep_skip problem st s path rest); [by rewrite Hfr | done..].
Qed.



Lemma elem_of_extend s' path' path (succs : list (State * Action * Z)) :
  (s', path') ∈ extend path <$> succs →
  ∃ a c, (s', a, c) ∈ succs ∧ path' = path ++ [a].
Proof.
  intros ([[s1 a] c] & [= -> ->] & Hin)%list_elem_of_fmap. eauto.
Qed.

Lemma u_reach_step st st' :
  u_reach problem st → ustep problem st (Continue st') → u_reach problem st'.
Proof.
  intros [Hfr Hvis] Hstep. ustep_cases Hstep; split; simpl.
  - intros s1 p1 Hin1. apply (Hfr s1 p1). rewrite Hperm. by right.
  - done.
  - intros s1 p1. rewrite Hfr'. intros [Hin1|Hin1]%elem_of_app.
    + apply (Hfr s1 p1). rewrite Hperm. by right.
    + apply elem_of_extend in Hin1 as (a & c & Hin1 & _).
      eapply reach_step; [|done]. apply (Hfr s path). rewrite Hperm. by left.
  - intros s1 [->%elem_of_singleton|Hin1]%elem_of_union; [|auto].
    apply (Hfr s path). rewrite Hperm. by left.
Qed.

Lemma u_valid_step st st' :
  deterministic problem →
  u_reach problem st → u_valid problem st →
  ustep problem st (Continue st') → u_valid problem st'.
Proof.
  intros Hdet [Hreach _] Hval Hstep.
  ustep_cases Hstep; intros s1 p1; simpl.
  - intros Hin1. apply Hval. rewrite Hperm. by right.
  - rewrite Hfr'. intros [Hin1|Hin1]%elem_of_app.
    + apply Hval. rewrite Hperm. by right.
    + apply elem_of_extend in Hin1 as (a & c & Hin1 & ->).
      assert ((s, path) ∈ u_frontier st) as Hs by (rewrite Hperm; by left).
      destruct (Hval _ _ Hs) as [g Hg'].
      exists (g + c)%Z. eapply replay_snoc; [done|].
      apply triple_for_NoDup; eauto.
Qed.

Lemma u_complete_step st st' :
  u_complete problem st → ustep problem st (Continue st') → u_complete problem st'.
Proof.
  intros [Hstart Hsucc] Hstep.
  ustep_cases Hstep; unfold u_complete; simpl.
  - assert (∀ x, x ∈ (u_frontier st).*1 → x ∈ u_visited st ∨ x ∈ rest.*1)
      as Hmove.
    { intros x. rewrite Hperm, fmap_cons. simpl.
      intros [->|?]%elem_of_cons; auto. }
    split; [destruct Hstart; auto|].
    intros s1 Hs1. destruct (Hsucc _ Hs1) as [Hg1 Hs1'].
    split; [done|]. intros t Ht. destruct (Hs1' t Ht); auto.
  - assert (∀ x, x ∈ (u_frontier st).*1 →
                 x ∈ {[s]} ∪ u_visited st ∨ x ∈ fr'.*1) as Hmove.
    { intros x. rewrite Hperm, Hfr', fmap_cons, fmap_app. simpl.
      intros [->|?]%elem_of_cons.
      - left. apply elem_of_union. left. by apply elem_of_singleton.
      - right. apply elem_of_app. auto. }
    split.
    { destruct Hstart as [?|?]; [|auto]. left. apply elem_of_union. auto. }
    intros s1 [->%elem_of_singleton|Hs1]%elem_of_union.
    + split; [done|]. intros t Ht. right. rewrite Hfr', fmap_app.
      apply elem_of_app. right.
      apply list_elem_of_fmap. exists (extend path t). split; [done|].
      by apply list_elem_of_fmap_2.
    + destruct (Hsucc _ Hs1) as [Hg1 Hs1']. split; [done|].
      intros t Ht. destruct (Hs1' t Ht) as [?|?]; [|auto].
      left. apply elem_of_union. auto.
Qed.

Lemma u_logged_step st st' :
  u_logged st → ustep problem st (Continue st') → u_logged st'.
Proof.
  intros [Hnd Hsub] Hstep. ustep_cases Hstep; unfold u_logged; simpl.
  - done.
  - split.
    + apply NoDup_app. split; [done|]. split; [|apply NoDup_singleton].
      intros x Hx ->%list_elem_of_singleton. auto.
    + intros x [Hx| ->%list_elem_of_singleton]%elem_of_app;
        apply elem_of_union; [auto|].
      left. by apply elem_of_singleton.
Qed.

(** When the frontier is empty every reachable state has been visited. *)
Lemma u_complete_closed st s :
  u_complete problem st → u_frontier st = [] → reachable problem s →
  s ∈ u_visited st.
Proof.
  intros [Hstart Hsucc] Hempty. rewrite Hempty in *. simpl in *.
  induction 1 as [|s s' a c Hs IH Hin].
  - destruct Hstart as [?|?%elem_of_nil]; done.
  - destruct (Hsucc _ IH) as [_ Hs'].
    destruct (Hs' _ Hin) as [?|?%elem_of_nil]; done.
Qed.
End Uninformed.

Section UninformedRuns.
Context {State Action : Type} `{Countable State} `{EqDecision Action}.
Variable problem : SearchProblem State Action.
Variable step :
  ustate State Action → outcome (ustate State Action) State Action.
Hypothesis step_sound : ∀ st, ustep problem st (step st).
Implicit Types (s : State) (path : list Action) (st : ustate State Action).

Lemma u_init_reach : u_reach problem (u_init problem).
Proof.
  split; simpl.
  - intros s path [= -> ->]%list_elem_of_singleton. constructor.
  - by intros s ?%not_elem_of_empty.
Qed.

Lemma u_init_valid : u_valid problem (u_init problem).
Proof.
  intros s path [= -> ->]%list_elem_of_singleton. by exists 0%Z.
Qed.

Lemma u_init_complete : u_complete problem (u_init problem).
Proof.
  split; simpl.
  - right. by apply list_elem_of_singleton.
  - by intros s ?%not_elem_of_empty.
Qed.

Lemma u_init_logged : u_logged (u_init problem).
Proof. split; simpl; [constructor | by intros s ?%elem_of_nil]. Qed.

Lemma step_continue st st' :
  step st = Continue st' → ustep problem st (Continue st').
Proof. intros <-. apply step_sound. Qed.

Lemma u_steps_reach st :
  steps step (u_init problem) st → u_reach problem st.
Proof.
  apply steps_invariant; [|apply u_init_reach].
  intros st1 st2 HI Hs. eapply u_reach_step; [done|]. by apply step_continue.
Qed.

Lemma u_steps_valid st :
  deterministic problem → steps step (u_init problem) st → u_valid problem st.
Proof.
  intros Hdet Hsteps.
  cut (u_reach problem st ∧ u_valid problem st); [by intros []|].
  revert Hsteps.
  apply (steps_invariant step (λ st, u_reach problem st ∧ u_valid problem st));
    [|split; [apply u_init_reach | apply u_init_valid]].
  intros st1 st2 [Hr Hv] Hs%step_continue. split.
  - by eapply u_reach_step.
  - by eapply u_valid_step.
Qed.

Lemma u_steps_complete st :
  steps step (u_init problem) st → u_complete problem st.
Proof.
  apply steps_invariant; [|apply u_init_complete].
  intros st1 st2 HI Hs%step_continue. by eapply u_complete_step.
Qed.

Lemma u_steps_logged st :
  steps step (u_init problem) st → u_logged st.
Proof.
  apply steps_invariant; [|apply u_init_logged].
  intros st1 st2 HI Hs%step_continue. by eapply u_logged_step.
Qed.

Lemma step_safe st e : step st ≠ Raise e.
Proof.
  intros Heq. pose proof (step_sound st) as Hs. rewrite Heq in Hs. inversion Hs.
Qed.

Lemma u_measure_step universe st st' :
  (∀ s, reachable problem s → s ∈ universe) →
  u_reach problem st → ustep problem st (Continue st') →
  lex3 (u_measure universe st') (u_measure universe st).
Proof.
  intros Huniv [Hfr _] Hstep. unfold lex3, u_measure.
  ustep_cases Hstep; simpl.
  - right. split; [done|]. right. split; [done|].
    rewrite Hperm. simpl. lia.
  - left. apply subset_size, difference_grow; [|done].
    apply Huniv, (Hfr s path). rewrite Hperm. by left.
Qed.

Lemma u_terminates :
  finite_reachable problem →
  ∃ fuel path calls, run step fuel (u_init problem) = Returned path calls.
Proof.
  intros [universe Huniv].
  apply (run_terminates step (u_reach problem) (u_measure universe)).
  - intros st st' HI Hs%step_continue. split.
    + by eapply u_reach_step.
    + by apply u_measure_step.
  - apply step_safe.
  - apply u_init_reach.
Qed.

(** How the loop can return: on an empty frontier, or with the path of a
    popped goal entry. *)
Lemma u_return_cases fuel path calls :
  run step fuel (u_init problem) = Returned path calls →
  ∃ st, steps step (u_init problem) st ∧ calls = u_calls st
    ∧ ((path = [] ∧ u_frontier st = [])
       ∨ ∃ s, (s, path) ∈ u_frontier st ∧ isGoalState problem s = true).
Proof.
  intros (st & Hsteps & Hret)%run_returned. exists st. split; [done|].
  pose proof (step_sound st) as Hs. rewrite Hret in Hs.
  inversion Hs as [Hfr|s path' rest Hperm Hg| |]; subst.
  - split; [done|]. by left.
  - split; [done|]. right. exists s. split; [|done]. rewrite Hperm. by left.
Qed.

Lemma u_returned_valid fuel path calls :
  deterministic problem →
  run step fuel (u_init problem) = Returned path calls →
  (path ≠ [] →
     ∃ total, solves problem (getStartState problem) path total)
  ∧ (path = [] →
     isGoalState problem (getStartState problem) = true
     ∨ ¬ goal_reachable problem).
Proof.
  intros Hdet (st & Hsteps & -> & Hcases)%u_return_cases.
  destruct Hcases as [[-> Hempty]|(s & Hin & Hgoal)].
  - split; [done|]. intros _. right. intros (s & Hs & Hgoal).
    pose proof (u_steps_complete _ Hsteps) as Hc.
    pose proof (u_complete_closed _ _ _ Hc Hempty Hs) as Hvis.
    destruct Hc as [_ Hc]. destruct (Hc _ Hvis) as [Hng _]. congruence.
  - destruct (u_steps_valid _ Hdet Hsteps _ _ Hin) as [g Hg].
    split.
    + intros _. exists g, s. done.
    + intros ->. simpl in Hg. injection Hg as <- _. by left.
Qed.


Lemma u_returned_logged fuel path calls :
  run step fuel (u_init problem) = Returned path calls → NoDup calls.
Proof.
  intros (st & Hsteps & -> & _)%u_return_cases.
  by destruct (u_steps_logged _ Hsteps).
Qed.
End UninformedRuns.

(** ** Uniform-cost and A* search *)

Section CostAware.
Context {State Action : Type} `{Countable State} `{EqDecision Action}.
Variable problem : SearchProblem State Action.
Variable h : heuristic State Action.
Implicit Types (s : State) (path : list Action) (st : cstate State Action)
  (visited : gmap State Z) (g cost : Z).
Abbreviation centry := (Z * (State * list Action * Z))%type.

Lemma improves_better visited s cost :
  improves visited s cost = Ok (better visited s cost).
Proof.
  unfold improves, better, getitem. case_bool_decide as Hdom.
  - by apply not_elem_of_dom in Hdom as ->.
  - apply elem_of_dom in Hdom as [v ->]. done.
Qed.

Lemma expansion_pushed visited path g (succs : list (State * Action * Z))
    (frontier : list centry) :
  for_each
    (λ fr '(nextState, action, cost),
       let newCost := (g + cost)%Z in
       let priority := (newCost + h nextState problem)%Z in
       do b <- improves visited nextState newCost;
       Ok (if b : bool
           then PriorityQueue.push
                  (nextState, path ++ [action], newCost) priority fr
           else fr))
    succs frontier
  = Ok (frontier ++ pushed problem h visited path g succs).
Proof.
  revert frontier. induction succs as [|[[s a] c] succs IH]; intros frontier.
  - unfold pushed. simpl. by rewrite app_nil_r.
  - simpl. rewrite improves_better. simpl. rewrite IH.
    unfold pushed. rewrite filter_cons. simpl.
    destruct (better visited s (g + c)) eqn:Hb.
    + rewrite decide_True by done. unfold PriorityQueue.push. simpl.
      by rewrite <- app_assoc.
    + rewrite decide_False by done. done.
Qed.

Lemma astar_cstep st : cstep problem h st (astar_step problem h st).
Proof.
  unfold astar_step.
  destruct (PriorityQueue.isEmpty (c_frontier st)) eqn:Hempty.
  { apply isEmpty_true in Hempty. by constructor. }
  destruct (PriorityQueue.pop (c_frontier st)) as [[[[s path] g] rest]|e]
    eqn:Hpop.
  2: { apply pq_pop_Err in Hpop. congruence. }
  apply pq_pop_Ok in Hpop as (priority & Hperm & Hmin).
  destruct (isGoalState problem s) eqn:Hgoal.
  { by apply (cstep_goal problem h st priority s path g rest). }
  rewrite improves_better.
  destruct (better (c_visited st) s g) eqn:Hb.
  - rewrite expansion_pushed.
    by apply (cstep_expand problem h st priority s path g rest).
  - by apply (cstep_skip problem h st priority s path g rest).
Qed.

Lemma astar_step_safe st e : astar_step problem h st ≠ Raise e.
Proof.
  intros Heq. pose proof (astar_cstep st) as Hs. rewrite Heq in Hs.
  inversion Hs.
Qed.
End CostAware.

Section UniformCost.
Context {State Action : Type} `{Countable State} `{EqDecision Action}.
Variable problem : SearchProblem State Action.

(** [uniformCostSearch] is [aStarSearch] with the zero heuristic, step
    by step. *)
Lemma ucs_step_astar (st : cstate State Action) :
  ucs_step problem st = astar_step problem nullHeuristic st.
Proof.
  unfold ucs_step, astar_step.
  destruct (PriorityQueue.isEmpty (c_frontier st)); [done|].
  destruct (PriorityQueue.pop (c_frontier st)) as [[[[s path] g] rest]|e];
    [|done].
  destruct (isGoalState problem s); [done|].
  destruct (improves (c_visited st) s g) as [[]|]; [|done..].
  set (visited := <[s:=g]> (c_visited st)).
  generalize (getSuccessors problem s) as succs. intros succs.
  assert (∀ fr : PriorityQueue.t (State * list Action * Z),
    for_each
      (λ fr '(nextState, action, cost),
         let newCost := (g + cost)%Z in
         do b <- improves visited nextState newCost;
         Ok (if b : bool
             then PriorityQueue.push
                    (nextState, path ++ [action], newCost) newCost fr
             else fr)) succs fr
    = for_each
      (λ fr '(nextState, action, cost),
         let newCost := (g + cost)%Z in
         let priority := (newCost + nullHeuristic nextState problem)%Z in
         do b <- improves visited nextState newCost;
         Ok (if b : bool
             then PriorityQueue.push
                    (nextState, path ++ [action], newCost) priority fr
             else fr)) succs fr) as ->; [|done].
  induction succs as [|[[s' a] c] succs IH]; intros fr; [done|].
  simpl. unfold nullHeuristic at 1. rewrite Z.add_0_r.
  destruct (improves visited s' (g + c)) as [b|]; [|done]. simpl.
  apply IH.
Qed.

Lemma ucs_init_astar : ucs_init problem = astar_init problem nullHeuristic.
Proof. reflexivity. Qed.

Lemma ucs_astar fuel :
  uniformCostSearch fuel problem = aStarSearch fuel problem nullHeuristic.
Proof.
  unfold uniformCostSearch, aStarSearch. rewrite ucs_init_astar.
  apply run_ext, ucs_step_astar.
Qed.
End UniformCost.

Section CostAwareInvariants.
Context {State Action : Type} `{Countable State} `{EqDecision Action}.
Variable problem : SearchProblem State Action.
Variable h : heuristic State Action.
Abbreviation centry := (Z * (State * list Action * Z))%type.
Implicit Types (s : State) (path : list Action) (st : cstate State Action)
  (visited : gmap State Z) (g cost : Z) (e : centry).

Lemma elem_of_pushed e visited path g (succs : list (State * Action * Z)) :
  e ∈ pushed problem h visited path g succs ↔
  ∃ t, t ∈ succs ∧ better visited t.1.1 (g + t.2) = true
       ∧ e = child problem h path g t.
Proof.
  unfold pushed. rewrite list_elem_of_fmap. split.
  - intros (t & -> & [Hb Hin]%list_elem_of_filter). eauto.
  - intros (t & Hin & Hb & ->). exists t. split; [done|].
    by apply list_elem_of_filter.
Qed.

Lemma better_false visited s g :
  better visited s g = false →
  ∃ v, visited !! s = Some v ∧ (v ≤ g)%Z.
Proof.
  unfold better. destruct (visited !! s) as [v|]; [|done].
  case_bool_decide; [done|]. intros _. exists v. split; [done | lia].
Qed.

Lemma better_true visited s g v :
  better visited s g = true → visited !! s = Some v → (g < v)%Z.
Proof. unfold better. intros Hb Hv. rewrite Hv in Hb. by case_bool_decide. Qed.

Lemma c_reach_step st st' :
  c_reach problem st → cstep problem h st (Continue st') → c_reach problem st'.
Proof.
  intros [Hfr Hvis] Hstep.
  cstep_cases Hstep; unfold c_reach; simpl.
  - split; [|done]. intros e He. apply Hfr. rewrite Hperm. by right.
  - assert (reachable problem s) as Hs.
    { apply (Hfr (p, (s, path, g))). rewrite Hperm. by left. }
    split.
    + intros e [He|He]%elem_of_app.
      * apply Hfr. rewrite Hperm. by right.
      * apply elem_of_pushed in He as ([[s1 a] c] & Hin & _ & ->).
        by eapply reach_step.
    + intros s1 v. rewrite lookup_insert. case_decide; [by intros; subst|].
      apply Hvis.
Qed.

Lemma c_nonneg_step st st' :
  nonneg_costs problem →
  c_reach problem st → c_nonneg st → cstep problem h st (Continue st') →
  c_nonneg st'.
Proof.
  intros Hcosts [Hreach _] [Hfr Hvis] Hstep.
  cstep_cases Hstep; unfold c_nonneg; simpl.
  - split; [|done]. intros e He. apply Hfr. rewrite Hperm. by right.
  - assert ((p, (s, path, g)) ∈ c_frontier st) as Hin0.
    { rewrite Hperm. by left. }
    pose proof (Hreach _ Hin0) as Hs. pose proof (Hfr _ Hin0) as Hg0.
    unfold e_cost, e_state in *. simpl in *.
    split.
    + intros e [He|He]%elem_of_app.
      * apply Hfr. rewrite Hperm. by right.
      * apply elem_of_pushed in He as ([[s1 a] c] & Hin & _ & ->). simpl.
        specialize (Hcosts _ _ _ _ Hs Hin). lia.
    + intros s1 v. rewrite lookup_insert. case_decide.
      * by intros [= <-].
      * apply Hvis.
Qed.

Lemma c_valid_step st st' :
  deterministic problem →
  c_reach problem st → c_valid problem h st → cstep problem h st (Continue st') →
  c_valid problem h st'.
Proof.
  intros Hdet [Hreach _] Hval Hstep.
  cstep_cases Hstep; unfold c_valid; simpl.
  - intros e He. apply Hval. rewrite Hperm. by right.
  - assert ((p, (s, path, g)) ∈ c_frontier st) as Hin0.
    { rewrite Hperm. by left. }
    pose proof (Hreach _ Hin0) as Hs. destruct (Hval _ Hin0) as [Hpath _].
    unfold e_cost, e_state, e_path in *. simpl in *.
    intros e [He|He]%elem_of_app.
    + apply Hval. rewrite Hperm. by right.
    + apply elem_of_pushed in He as ([[s1 a] c] & Hin & _ & ->). simpl.
      split; [|done]. eapply replay_snoc; [done|].
      apply triple_for_NoDup; auto.
Qed.

Lemma c_complete_step st st' :
  c_complete problem st → cstep problem h st (Continue st') → c_complete problem st'.
Proof.
  intros [Hstart Hsucc] Hstep.
  cstep_cases Hstep; unfold c_complete; simpl.
  - assert (∀ x, x ∈ e_state <$> c_frontier st →
                 x ∈ dom (c_visited st) ∨ x ∈ e_state <$> rest) as Hmove.
    { intros x. rewrite Hperm, fmap_cons. unfold e_state at 1. simpl.
      intros [->|?]%elem_of_cons; [|auto].
      left. apply better_false in Hb as (v & Hv & _).
      apply elem_of_dom. eauto. }
    split; [destruct Hstart; auto|].
    intros s1 Hs1. destruct (Hsucc _ Hs1) as [Hg1 Hs1'].
    split; [done|]. intros t Ht. destruct (Hs1' t Ht); auto.
  - set (visited' := <[s:=g]> (c_visited st)).
    set (frontier' := rest ++ pushed problem h visited' path g
                                (getSuccessors problem s)).
    assert (∀ x, x ∈ dom (c_visited st) → x ∈ dom visited') as Hgrow.
    { intros x Hx. unfold visited'. rewrite dom_insert_L.
      apply elem_of_union. auto. }
    assert (s ∈ dom visited') as Hs.
    { unfold visited'. rewrite dom_insert_L.
      apply elem_of_union. left. by apply elem_of_singleton. }
    assert (∀ x, x ∈ e_state <$> c_frontier st →
                 x ∈ dom visited' ∨ x ∈ e_state <$> frontier') as Hmove.
    { intros x. rewrite Hperm, fmap_cons. unfold e_state at 1. simpl.
      intros [->|?]%elem_of_cons; [by left|].
      right. unfold frontier'. rewrite fmap_app. apply elem_of_app. auto. }
    split.
    { destruct Hstart as [?|?]; auto. }
    intros s1. unfold visited' at 1. rewrite dom_insert_L.
    intros [->%elem_of_singleton|Hs1]%elem_of_union.
    + split; [done|]. intros t Ht.
      destruct (better visited' t.1.1 (g + t.2)) eqn:Hbt.
      * right. unfold frontier'. rewrite fmap_app. apply elem_of_app. right.
        apply list_elem_of_fmap. exists (child problem h path g t).
        split; [done|]. apply elem_of_pushed. eauto.
      * left. apply better_false in Hbt as (v & Hv & _).
        apply elem_of_dom. eauto.
    + destruct (Hsucc _ Hs1) as [Hg1 Hs1']. split; [done|].
      intros t Ht. destruct (Hs1' t Ht) as [?|?]; auto.
Qed.

Lemma c_complete_closed st s :
  c_complete problem st → c_frontier st = [] → reachable problem s →
  s ∈ dom (c_visited st).
Proof.
  intros [Hstart Hsucc] Hempty. rewrite Hempty in *. simpl in *.
  induction 1 as [|s s' a c Hs IH Hin].
  - destruct Hstart as [?|?%elem_of_nil]; done.
  - destruct (Hsucc _ IH) as [_ Hs'].
    destruct (Hs' _ Hin) as [?|?%elem_of_nil]; done.
Qed.
End CostAwareInvariants.

Section CostAwareOptimality.
Context {State Action : Type} `{Countable State} `{EqDecision Action}.
Variable problem : SearchProblem State Action.
Variable h : heuristic State Action.
Abbreviation centry := (Z * (State * list Action * Z))%type.
Implicit Types (s : State) (path : list Action) (st : cstate State Action)
  (visited : gmap State Z) (g cost : Z) (e : centry)
  (frontier : list centry).

Lemma covers_mono n n' frontier budget budget' :
  n ≤ n' → (budget ≤ budget')%Z →
  covers problem n frontier budget → covers problem n' frontier budget'.
Proof.
  intros Hn Hb (e & actions & total & He & Hsol & Hlen & Hle).
  exists e, actions, total. repeat split; [done..|lia|lia].
Qed.

(** The relaxation argument. The loop pops [e0] and goes from
    [(frontier, visited)] to [(frontier', visited')]: the other entries
    stay, the state of [e0] is recorded at no more than the cost of [e0],
    and a newly recorded cost comes with the successors of its state
    either inserted in the frontier or recorded at no more than the cost
    through it. *)
Lemma relaxation frontier visited frontier' visited' e0 :
  isGoalState problem (e_state e0) = false →
  (∀ e, e ∈ frontier → e = e0 ∨ e ∈ frontier') →
  (∃ v0, visited' !! e_state e0 = Some v0 ∧ (v0 ≤ e_cost e0)%Z) →
  (∀ s v, visited' !! s = Some v →
     visited !! s = Some v
     ∨ (s = e_state e0 ∧ v = e_cost e0
        ∧ ∀ t, t ∈ getSuccessors problem s →
            (∃ e, e ∈ frontier' ∧ e_state e = t.1.1
                  ∧ e_cost e = (v + t.2)%Z)
            ∨ ∃ v1, visited' !! t.1.1 = Some v1 ∧ (v1 ≤ v + t.2)%Z)) →
  (∀ s v actions total,
     visited !! s = Some v → solves problem s actions total →
     covers problem (length actions) frontier (v + total)) →
  ∀ s v actions total,
    visited' !! s = Some v → solves problem s actions total →
    covers problem (length actions) frontier' (v + total).
Proof.
  intros Hng Hkeep (v0 & Hv0 & Hle0) Hnew Hold s v actions.
  remember (length actions) as n eqn:Hn.
  revert s v actions Hn.
  induction n as [n IH] using lt_wf_ind.
  intros s v actions -> total Hv Hsol.
  destruct (Hnew _ _ Hv) as [Hv'|(-> & -> & Hsuccs)].
  - destruct (Hold _ _ _ _ Hv' Hsol)
      as (e & actions' & total' & He & Hsol' & Hlen & Hle).
    destruct (Hkeep _ He) as [->|He'].
    + eapply covers_mono;
        [| |apply (IH _ Hlen (e_state e0) v0 actions' eq_refl total' Hv0 Hsol')];
        lia.
    + by exists e, actions', total'.
  - destruct Hsol as (final & Hrep & Hgoal).
    destruct actions as [|a actions]; simpl in Hrep.
    { injection Hrep as <- <-. congruence. }
    destruct (triple_for a (getSuccessors problem (e_state e0)))
      as [[s1 c1]|] eqn:Ha; [|done].
    destruct (replay problem s1 actions) as [[final' total1]|] eqn:Hrest;
      [|done].
    injection Hrep as -> <-.
    assert (solves problem s1 actions total1) as Hsol1 by by exists final.
    apply triple_for_elem in Ha.
    destruct (Hsuccs _ Ha) as [(e & He & Hes & Hec)|(v1 & Hv1 & Hle1)];
      simpl in *.
    + exists e, actions, total1. rewrite Hes, Hec.
      repeat split; [done..|lia|lia].
    + eapply covers_mono;
        [| |apply (IH (length actions) (Nat.lt_succ_diag_r _) s1 v1 actions
                  eq_refl total1 Hv1 Hsol1)];
        lia.
Qed.

Lemma c_opt_step st st' :
  c_opt problem st → cstep problem h st (Continue st') → c_opt problem st'.
Proof.
  intros [Hstart Hrec] Hstep.
  assert (∃ e0,
    isGoalState problem (e_state e0) = false
    ∧ (∀ e, e ∈ c_frontier st → e = e0 ∨ e ∈ c_frontier st')
    ∧ (∃ v0, c_visited st' !! e_state e0 = Some v0 ∧ (v0 ≤ e_cost e0)%Z)
    ∧ (∀ s v, c_visited st' !! s = Some v →
         c_visited st !! s = Some v
         ∨ (s = e_state e0 ∧ v = e_cost e0
            ∧ ∀ t, t ∈ getSuccessors problem s →
                (∃ e, e ∈ c_frontier st' ∧ e_state e = t.1.1
                      ∧ e_cost e = (v + t.2)%Z)
                ∨ ∃ v1, c_visited st' !! t.1.1 = Some v1
                        ∧ (v1 ≤ v + t.2)%Z)))
    as (e0 & Hng & Hkeep & Hv0 & Hnew).
  { cstep_cases Hstep; exists (p, (s, path, g)); simpl.
    - split; [done|]. split; [|split].
      + intros e. rewrite Hperm. by intros [->|?]%elem_of_cons; auto.
      + by apply better_false.
      + auto.
    - split; [done|]. split; [|split].
      + intros e. rewrite Hperm.
        intros [->|?]%elem_of_cons; [by left|]. right.
        apply elem_of_app. auto.
      + exists g. unfold e_state, e_cost. simpl.
        by rewrite lookup_insert_eq.
      + intros s1 v. unfold e_state, e_cost. simpl.
        rewrite lookup_insert. case_decide as Hs1; [|auto].
        subst s1. intros [= <-]. right. do 2 (split; [done|]).
        intros t Ht.
        destruct (better (<[s:=g]> (c_visited st)) t.1.1 (g + t.2)) eqn:Hbt.
        * left. exists (child problem h path g t). split; [|done].
          apply elem_of_app. right. apply elem_of_pushed. eauto.
        * right. by apply better_false. }
  pose proof (relaxation _ _ _ _ _ Hng Hkeep Hv0 Hnew Hrec) as Hrec'.
  split; [|done].
  intros actions total Hsol.
  destruct (Hstart _ _ Hsol)
    as (e & actions' & total' & He & Hsol' & Hlen & Hle).
  destruct (Hkeep _ He) as [->|He'].
  - destruct Hv0 as (v0 & Hv0 & Hle0).
    eapply covers_mono; [| |apply (Hrec' _ _ _ _ Hv0 Hsol')]; lia.
  - by exists e, actions', total'.
Qed.

(** The popped goal entry costs no more than any solution. *)
Lemma c_goal_least st priority s path g actions total :
  nonneg_at_goals problem h → admissible problem h →
  c_reach problem st → c_valid problem h st → c_opt problem st →
  (priority, (s, path, g)) ∈ c_frontier st →
  (∀ e, e ∈ c_frontier st → (priority ≤ e.1)%Z) →
  isGoalState problem s = true →
  solves problem (getStartState problem) actions total →
  (g ≤ total)%Z.
Proof.
  intros Hpos Hadm [Hreach _] Hval [Hstart _] Hin Hmin Hgoal Hsol.
  destruct (Hstart _ _ Hsol)
    as (e & actions' & total' & He & Hsol' & _ & Hle).
  destruct (Hval _ Hin) as [_ Hprio]. destruct (Hval _ He) as [_ Hprio'].
  specialize (Hmin _ He). specialize (Hadm _ _ _ (Hreach _ He) Hsol').
  specialize (Hpos s (Hreach _ Hin) Hgoal).
  unfold e_state, e_cost in *. simpl in *. lia.
Qed.
End CostAwareOptimality.

Section CostAwareRuns.
Context {State Action : Type} `{Countable State} `{EqDecision Action}.
Variable problem : SearchProblem State Action.
Variable h : heuristic State Action.
Abbreviation centry := (Z * (State * list Action * Z))%type.
Implicit Types (s : State) (path : list Action) (st : cstate State Action)
  (visited : gmap State Z) (g cost : Z) (e : centry).

Abbreviation astep := (astar_step problem h).
Abbreviation ainit := (astar_init problem h).

Lemma ainit_frontier e :
  e ∈ c_frontier ainit →
  e = ((0 + h (getStartState problem) problem)%Z,
       (getStartState problem, [], 0%Z)).
Proof. simpl. by intros ->%list_elem_of_singleton. Qed.

Lemma c_init_reach : c_reach problem ainit.
Proof.
  split.
  - intros e ->%ainit_frontier. constructor.
  - intros s v. simpl. by rewrite lookup_empty.
Qed.

Lemma c_init_nonneg : c_nonneg ainit.
Proof.
  split.
  - by intros e ->%ainit_frontier.
  - intros s v. simpl. by rewrite lookup_empty.
Qed.

Lemma c_init_valid : c_valid problem h ainit.
Proof. by intros e ->%ainit_frontier. Qed.

Lemma c_init_complete : c_complete problem ainit.
Proof.
  split; simpl.
  - right. by apply list_elem_of_singleton.
  - intros s. by rewrite dom_empty_L; intros ?%not_elem_of_empty.
Qed.

Lemma c_init_opt : c_opt problem ainit.
Proof.
  split.
  - intros actions total Hsol. eexists _, actions, total.
    split; [by apply list_elem_of_singleton|]. split; [done|].
    split; [lia|]. unfold e_cost. simpl. lia.
  - intros s v actions total. simpl. by rewrite lookup_empty.
Qed.

Lemma astep_continue st st' :
  astep st = Continue st' → cstep problem h st (Continue st').
Proof. intros <-. apply astar_cstep. Qed.

Lemma c_steps_reach st : steps astep ainit st → c_reach problem st.
Proof.
  apply steps_invariant; [|apply c_init_reach].
  intros st1 st2 HI Hs%astep_continue. by eapply c_reach_step.
Qed.

Lemma c_steps_complete st : steps astep ainit st → c_complete problem st.
Proof.
  apply steps_invariant; [|apply c_init_complete].
  intros st1 st2 HI Hs%astep_continue. by eapply c_complete_step.
Qed.

Lemma c_steps_opt st : steps astep ainit st → c_opt problem st.
Proof.
  apply steps_invariant; [|apply c_init_opt].
  intros st1 st2 HI Hs%astep_continue. by eapply c_opt_step.
Qed.

Lemma c_steps_valid st :
  deterministic problem → steps astep ainit st → c_valid problem h st.
Proof.
  intros Hdet Hsteps.
  cut (c_reach problem st ∧ c_valid problem h st); [by intros []|].
  revert Hsteps.
  apply (steps_invariant astep
           (λ st, c_reach problem st ∧ c_valid problem h st));
    [|split; [apply c_init_reach | apply c_init_valid]].
  intros st1 st2 [Hr Hv] Hs%astep_continue. split.
  - by eapply c_reach_step.
  - by eapply c_valid_step.
Qed.

(** *** Termination *)

Lemma recorded_insert_new visited s g :
  visited !! s = None →
  recorded (<[s:=g]> visited) = Z.to_nat g + recorded visited.
Proof.
  intros Hs. unfold recorded. rewrite map_fold_insert_L; [done| |done].
  intros. lia.
Qed.

Lemma recorded_insert_old visited s g v :
  visited !! s = Some v →
  recorded (<[s:=g]> visited) + Z.to_nat v = Z.to_nat g + recorded visited.
Proof.
  intros Hs. rewrite <- (insert_delete_eq visited).
  rewrite recorded_insert_new by apply lookup_delete_eq.
  unfold recorded at 2.
  rewrite (map_fold_delete_L _ _ s v visited); [|intros; lia|done].
  fold (recorded (delete s visited)). lia.
Qed.

Lemma c_measure_step universe st st' :
  (∀ s, reachable problem s → s ∈ universe) →
  c_reach problem st → c_nonneg st → cstep problem h st (Continue st') →
  lex3 (c_measure universe st') (c_measure universe st).
Proof.
  intros Huniv [Hreach _] [Hpos Hvpos] Hstep. unfold lex3, c_measure.
  cstep_cases Hstep; simpl.
  - right. split; [done|]. right. split; [done|].
    rewrite Hperm. simpl. lia.
  - assert ((p, (s, path, g)) ∈ c_frontier st) as Hin0.
    { rewrite Hperm. by left. }
    pose proof (Huniv _ (Hreach _ Hin0)) as Hs.
    pose proof (Hpos _ Hin0) as Hg0.
    unfold e_state, e_cost in *. simpl in *.
    destruct (c_visited st !! s) as [v|] eqn:Hv.
    + right. rewrite dom_insert_lookup_L by eauto. split; [done|]. left.
      pose proof (better_true _ _ _ _ Hb Hv) as Hlt.
      pose proof (recorded_insert_old _ _ g _ Hv) as Hsum. lia.
    + left. rewrite dom_insert_L.
      apply subset_size, difference_grow; [done|].
      by apply not_elem_of_dom.
Qed.

Lemma c_terminates :
  finite_reachable problem → nonneg_costs problem →
  ∃ fuel path calls, run astep fuel ainit = Returned path calls.
Proof.
  intros [universe Huniv] Hcosts.
  apply (run_terminates astep
           (λ st, c_reach problem st ∧ c_nonneg st) (c_measure universe)).
  - intros st st' [Hr Hn] Hs%astep_continue. split; [split|].
    + by eapply c_reach_step.
    + by eapply c_nonneg_step.
    + by apply c_measure_step.
  - apply astar_step_safe.
  - split; [apply c_init_reach | apply c_init_nonneg].
Qed.

(** *** What a returned answer is *)

Lemma c_return_cases fuel path calls :
  run astep fuel ainit = Returned path calls →
  ∃ st, steps astep ainit st ∧ calls = c_calls st
    ∧ ((path = [] ∧ c_frontier st = [])
       ∨ ∃ priority s g,
           (priority, (s, path, g)) ∈ c_frontier st
           ∧ (∀ e, e ∈ c_frontier st → (priority ≤ e.1)%Z)
           ∧ isGoalState problem s = true).
Proof.
  intros (st & Hsteps & Hret)%run_returned. exists st. split; [done|].
  pose proof (astar_cstep problem h st) as Hs. rewrite Hret in Hs.
  inversion Hs as [Hfr|p s path' g rest Hperm Hmin Hg| |]; subst.
  - split; [done|]. by left.
  - split; [done|]. right. exists p, s, g.
    split; [|done]. rewrite Hperm. by left.
Qed.

Lemma c_returned_valid fuel path calls :
  deterministic problem →
  run astep fuel ainit = Returned path calls →
  (path ≠ [] →
     ∃ total, solves problem (getStartState problem) path total)
  ∧ (path = [] →
     isGoalState problem (getStartState problem) = true
     ∨ ¬ goal_reachable problem).
Proof.
  intros Hdet (st & Hsteps & -> & Hcases)%c_return_cases.
  destruct Hcases as [[-> Hempty]|(p & s & g & Hin & _ & Hgoal)].
  - split; [done|]. intros _. right. intros (s & Hs & Hgoal).
    pose proof (c_steps_complete _ Hsteps) as Hc.
    pose proof (c_complete_closed _ _ _ Hc Hempty Hs) as Hvis.
    destruct Hc as [_ Hc]. destruct (Hc _ Hvis) as [Hng _]. congruence.
  - destruct (c_steps_valid _ Hdet Hsteps _ Hin) as [Hrep _].
    unfold e_state, e_path, e_cost in Hrep. simpl in Hrep.
    split.
    + intros _. exists g, s. done.
    + intros ->. simpl in Hrep. injection Hrep as <- _. by left.
Qed.


(** *** Optimality *)

Lemma c_returned_optimal fuel path calls :
  deterministic problem → cost_coherent problem →
  goal_reachable problem →
  nonneg_at_goals problem h → admissible problem h →
  run astep fuel ainit = Returned path calls →
  min_goal_cost problem (getCostOfActions problem path).
Proof.
  intros Hdet Hcoh Hgoal Hpos Hadm (st & Hsteps & -> & Hcases)%c_return_cases.
  pose proof (c_steps_opt _ Hsteps) as Hopt.
  pose proof (c_steps_valid _ Hdet Hsteps) as Hval.
  pose proof (c_steps_reach _ Hsteps) as Hreach.
  destruct Hcases as [[-> Hempty]|(p & s & g & Hin & Hmin & Hg)].
  - destruct (goal_reachable_solves _ Hdet Hgoal) as (actions & total & Hsol).
    destruct Hopt as [Hstart _].
    destruct (Hstart _ _ Hsol) as (e & _ & _ & He & _).
    rewrite Hempty in He. by apply elem_of_nil in He.
  - destruct (Hval _ Hin) as [Hrep _].
    unfold e_state, e_path, e_cost in Hrep. simpl in Hrep.
    rewrite (Hcoh _ _ _ Hrep). split.
    + exists path, s. done.
    + intros actions total Hsol. by eapply c_goal_least.
Qed.
End CostAwareRuns.

(** ** The four search functions *)

Section Searches.
Context {State Action : Type} `{Countable State} `{EqDecision Action}.
Implicit Types (problem : SearchProblem State Action)
  (h : heuristic State Action) (s : State) (path : list Action).

Lemma run_deterministic {St} (step : St → outcome St State Action)
    fuel fuel' st path path' calls calls' :
  run step fuel st = Returned path calls →
  run step fuel' st = Returned path' calls' →
  path = path' ∧ calls = calls'.
Proof.
  revert fuel' st. induction fuel as [|fuel IH]; intros [|fuel'] st; simpl;
    try done.
  destruct (step st) as [p c|st'|e]; try done.
  - by intros [= <- <-] [= <- <-].
  - apply IH.
Qed.

Lemma replay_nonneg problem s actions final total :
  nonneg_costs problem → reachable problem s →
  replay problem s actions = Some (final, total) → (0 ≤ total)%Z.
Proof.
  intros Hcosts. revert s total.
  induction actions as [|a actions IH]; intros s total Hs; simpl.
  - by intros [= _ <-].
  - destruct (triple_for a (getSuccessors problem s)) as [[s1 c1]|] eqn:Ha;
      [|done].
    destruct (replay problem s1 actions) as [[s2 c2]|] eqn:Hrest; [|done].
    intros [= -> <-]. apply triple_for_elem in Ha.
    pose proof (Hcosts _ _ _ _ Hs Ha).
    assert (reachable problem s1) as Hs1 by by eapply reach_step.
    pose proof (IH _ _ Hs1 Hrest). lia.
Qed.

Lemma null_admissible problem :
  nonneg_costs problem → admissible problem nullHeuristic.
Proof.
  intros Hcosts s actions total Hs (final & Hrep & _).
  by eapply replay_nonneg.
Qed.

(** The loop body of the uninformed searches never reads a step cost. *)
Lemma foldl_costs_irrelevant {B} (push : State * list Action → B → B) path
    (succs1 succs2 : list (State * Action * Z)) (frontier : B) :
  strip <$> succs1 = strip <$> succs2 →
  foldl (λ fr '(nextState, action, _), push (nextState, path ++ [action]) fr)
        frontier succs1
  = foldl (λ fr '(nextState, action, _), push (nextState, path ++ [action]) fr)
        frontier succs2.
Proof.
  revert succs2 frontier.
  induction succs1 as [|[[s a] c] succs1 IH];
    intros [|[[s' a'] c'] succs2] frontier; simpl; try done.
  intros [= -> -> Hrest]. by apply IH.
Qed.

Lemma dfs_step_costs p1 p2 (st : ustate State Action) :
  same_but_costs p1 p2 → dfs_step p1 st = dfs_step p2 st.
Proof.
  intros (_ & Hgoal & Hsuccs). unfold dfs_step.
  destruct (Stack.isEmpty (u_frontier st)); [done|].
  destruct (Stack.pop (u_frontier st)) as [[[s path] rest]|]; [|done].
  rewrite Hgoal. destruct (isGoalState p2 s); [done|].
  case_bool_decide; [|done]. do 2 f_equal.
  apply (foldl_costs_irrelevant Stack.push), Hsuccs.
Qed.

Lemma bfs_step_costs p1 p2 (st : ustate State Action) :
  same_but_costs p1 p2 → bfs_step p1 st = bfs_step p2 st.
Proof.
  intros (_ & Hgoal & Hsuccs). unfold bfs_step.
  destruct (Queue.isEmpty (u_frontier st)); [done|].
  destruct (Queue.pop (u_frontier st)) as [[[s path] rest]|]; [|done].
  rewrite Hgoal. destruct (isGoalState p2 s); [done|].
  case_bool_decide; [|done]. do 2 f_equal.
  apply (foldl_costs_irrelevant Queue.push), Hsuccs.
Qed.

(** C1. With non-negative step costs, a finite reachable state space and
    a reachable goal, [uniformCostSearch] returns, and so does
    [aStarSearch] under an admissible and consistent heuristic; the
    [getCostOfActions] of the returned sequence is the least cost of an
    action sequence from the start state to a goal state. The heuristic
    keeps its contract (values of at least zero), of which the proof
    uses the values at the reachable goal states only. The problem
    source is well-behaved: one successor triple per action, and
    [getCostOfActions] sums the step costs. *)
Theorem cost_aware_optimal problem h :
  nonneg_costs problem → finite_reachable problem →
  goal_reachable problem →
  deterministic problem → cost_coherent problem →
  admissible problem h → consistent problem h →
  nonneg_at_goals problem h →
  (∃ fuel path calls,
     uniformCostSearch fuel problem = Returned path calls
     ∧ min_goal_cost problem (getCostOfActions problem path))
  ∧ (∃ fuel path calls,
       aStarSearch fuel problem h = Returned path calls
       ∧ min_goal_cost problem (getCostOfActions problem path)).
Proof.
  intros Hcosts Hfin Hgoal Hdet Hcoh Hadm _ Hpos. split.
  - destruct (c_terminates problem nullHeuristic Hfin Hcosts)
      as (fuel & path & calls & Hrun).
    exists fuel, path, calls. rewrite ucs_astar. split; [done|].
    apply (c_returned_optimal problem nullHeuristic fuel path calls
             Hdet Hcoh Hgoal); [by intros s | by apply null_admissible | done].
  - destruct (c_terminates problem h Hfin Hcosts)
      as (fuel & path & calls & Hrun).
    exists fuel, path, calls. split; [done|].
    by eapply c_returned_optimal.
Qed.

(** C2. For each of the four search functions on a well-behaved problem:
    a non-empty returned sequence, replayed from the start state through
    [getSuccessors], ends in a goal state; when the returned sequence is
    empty, the start state is a goal or no goal state is reachable. *)
Theorem returned_path_valid problem h fuel path calls :
  deterministic problem →
  depthFirstSearch fuel problem = Returned path calls
  ∨ breadthFirstSearch fuel problem = Returned path calls
  ∨ uniformCostSearch fuel problem = Returned path calls
  ∨ aStarSearch fuel problem h = Returned path calls →
  (path ≠ [] →
     ∃ final total,
       replay problem (getStartState problem) path = Some (final, total)
       ∧ isGoalState problem final = true)
  ∧ (path = [] →
     isGoalState problem (getStartState problem) = true
     ∨ ¬ goal_reachable problem).
Proof.
  intros Hdet Hrun.
  cut ((path ≠ [] →
          ∃ total, solves problem (getStartState problem) path total)
       ∧ (path = [] →
          isGoalState problem (getStartState problem) = true
          ∨ ¬ goal_reachable problem)).
  { intros [Hne He]. split; [|done].
    intros Hp. destruct (Hne Hp) as (total & final & ?). eauto. }
  destruct Hrun as [Hrun|[Hrun|[Hrun|Hrun]]].
  - eapply (u_returned_valid problem (dfs_step problem));
      [apply dfs_ustep | done | apply Hrun].
  - eapply (u_returned_valid problem (bfs_step problem));
      [apply bfs_ustep | done | apply Hrun].
  - rewrite ucs_astar in Hrun. by eapply c_returned_valid.
  - by eapply c_returned_valid.
Qed.

(** C3. [aStarSearch] with [nullHeuristic] is [uniformCostSearch]: on
    every problem and for every number of iterations the two calls give
    the same answer, and whenever both return, the returned sequences
    have the same [getCostOfActions]. *)
Theorem astar_null_is_ucs problem :
  (∀ fuel,
     aStarSearch fuel problem nullHeuristic = uniformCostSearch fuel problem)
  ∧ (∀ fuel fuel' path path' calls calls',
       aStarSearch fuel problem nullHeuristic = Returned path calls →
       uniformCostSearch fuel' problem = Returned path' calls' →
       getCostOfActions problem path = getCostOfActions problem path').
Proof.
  split.
  - intros fuel. by rewrite ucs_astar.
  - intros fuel fuel' path path' calls calls' Ha Hu.
    rewrite ucs_astar in Hu.
    by destruct (run_deterministic _ _ _ _ _ _ _ _ Ha Hu) as [-> _].
Qed.

Lemma pq_pop_nonempty {A} (q : PriorityQueue.t A) x :
  PriorityQueue.pop q = Ok x → PriorityQueue.isEmpty q = false.
Proof. by destruct q. Qed.

(** C4 (amended). In an iteration of [aStarSearch] or
    [uniformCostSearch] whose popped state passes the skip-check, the
    new frontier holds the remaining entries and, for exactly those
    successor triples whose state is absent from the updated best-cost
    map or recorded there at a larger cost than the new accumulated
    cost, one new entry: path extended by the action, step cost added,
    priority the new cost, plus the heuristic of the successor in
    [aStarSearch]. *)
Theorem expansion_guarded problem h (st : cstate State Action)
    currentState path currentCost frontier :
  PriorityQueue.pop (c_frontier st)
    = Ok ((currentState, path, currentCost), frontier) →
  isGoalState problem currentState = false →
  improves (c_visited st) currentState currentCost = Ok true →
  let visited := <[currentState := currentCost]> (c_visited st) in
  (∃ st',
     astar_step problem h st = Continue st' ∧ c_visited st' = visited
     ∧ ∀ e, e ∈ c_frontier st' ↔
         e ∈ frontier
         ∨ ∃ nextState action cost,
             (nextState, action, cost) ∈ getSuccessors problem currentState
             ∧ improves visited nextState (currentCost + cost) = Ok true
             ∧ e = ((currentCost + cost + h nextState problem)%Z,
                    (nextState, path ++ [action], (currentCost + cost)%Z)))
  ∧ (∃ st',
       ucs_step problem st = Continue st' ∧ c_visited st' = visited
       ∧ ∀ e, e ∈ c_frontier st' ↔
           e ∈ frontier
           ∨ ∃ nextState action cost,
               (nextState, action, cost) ∈ getSuccessors problem currentState
               ∧ improves visited nextState (currentCost + cost) = Ok true
               ∧ e = ((currentCost + cost)%Z,
                      (nextState, path ++ [action], (currentCost + cost)%Z))).
Proof.
  intros Hpop Hgoal Himp visited.
  assert (∀ h', ∃ st',
     astar_step problem h' st = Continue st' ∧ c_visited st' = visited
     ∧ ∀ e, e ∈ c_frontier st' ↔
         e ∈ frontier
         ∨ ∃ nextState action cost,
             (nextState, action, cost) ∈ getSuccessors problem currentState
             ∧ improves visited nextState (currentCost + cost) = Ok true
             ∧ e = ((currentCost + cost + h' nextState problem)%Z,
                    (nextState, path ++ [action], (currentCost + cost)%Z)))
    as Hastar.
  { intros h'. unfold astar_step.
    rewrite (pq_pop_nonempty _ _ Hpop), Hpop, Hgoal, Himp.
    fold visited. rewrite expansion_pushed.
    eexists. split; [done|]. split; [done|]. simpl.
    intros e. rewrite elem_of_app, elem_of_pushed.
    split; (intros [?|Hnew]; [by left|right]).
    - destruct Hnew as ([[n a] c] & Hin & Hb & ->).
      exists n, a, c. rewrite improves_better. simpl in Hb. by rewrite Hb.
    - destruct Hnew as (n & a & c & Hin & Hb & ->).
      exists (n, a, c). rewrite improves_better in Hb.
      by injection Hb as Hb. }
  split; [apply Hastar|].
  destruct (Hastar nullHeuristic) as (st' & Hstep & Hvis & Hfr).
  exists st'. rewrite ucs_step_astar. split; [done|]. split; [done|].
  intros e. rewrite Hfr.
  split; (intros [?|(n & a & c & Hin & Hb & ->)]; [by left|right]);
    exists n, a, c; unfold nullHeuristic; by rewrite Z.add_0_r.
Qed.

(** C5. In a call of [depthFirstSearch] or [breadthFirstSearch], after
    any number of iterations and when the call returns, the log of the
    [getSuccessors] calls names no state twice. *)
Theorem uninformed_expand_once problem :
  (∀ st, steps (dfs_step problem) (dfs_init problem) st → NoDup (u_calls st))
  ∧ (∀ st, steps (bfs_step problem) (bfs_init problem) st →
       NoDup (u_calls st))
  ∧ (∀ fuel path calls,
       depthFirstSearch fuel problem = Returned path calls → NoDup calls)
  ∧ (∀ fuel path calls,
       breadthFirstSearch fuel problem = Returned path calls → NoDup calls).
Proof.
  repeat split.
  - intros st Hsteps.
    by destruct (u_steps_logged problem _ (dfs_ustep problem) _ Hsteps).
  - intros st Hsteps.
    by destruct (u_steps_logged problem _ (bfs_ustep problem) _ Hsteps).
  - intros fuel path calls.
    apply (u_returned_logged problem _ (dfs_ustep problem)).
  - intros fuel path calls.
    apply (u_returned_logged problem _ (bfs_ustep problem)).
Qed.

Lemma relaxation_step problem h (st st' : cstate State Action) s v :
  astar_step problem h st = Continue st' →
  c_visited st !! s = Some v →
  c_calls st' = c_calls st ++ [s] →
  ∃ path currentCost frontier,
    PriorityQueue.pop (c_frontier st) = Ok ((s, path, currentCost), frontier)
    ∧ (currentCost < v)%Z
    ∧ c_visited st' !! s = Some currentCost.
Proof.
  unfold astar_step.
  destruct (PriorityQueue.isEmpty (c_frontier st)); [done|].
  destruct (PriorityQueue.pop (c_frontier st)) as [[[[s0 path] g] rest]|];
    [|done].
  destruct (isGoalState problem s0); [done|].
  rewrite improves_better.
  destruct (better (c_visited st) s0 g) eqn:Hb.
  - rewrite expansion_pushed. intros [= <-]. simpl.
    intros Hv [= ->]%app_inv_head. exists path, g, rest.
    split; [done|]. split; [by eapply better_true|].
    by rewrite lookup_insert_eq.
  - intros [= <-]. simpl. intros _ Hcalls.
    apply (f_equal length) in Hcalls. rewrite length_app in Hcalls.
    simpl in Hcalls. lia.
Qed.

(** C6. When an iteration of [uniformCostSearch] or [aStarSearch]
    expands a state that the best-cost map already records, the popped
    entry's accumulated cost is strictly smaller than the recorded cost,
    and the map then records the popped entry's cost. *)
Theorem reexpansion_strictly_cheaper problem h (st st' : cstate State Action)
    s v :
  ucs_step problem st = Continue st'
  ∨ astar_step problem h st = Continue st' →
  c_visited st !! s = Some v →
  c_calls st' = c_calls st ++ [s] →
  ∃ path currentCost frontier,
    PriorityQueue.pop (c_frontier st) = Ok ((s, path, currentCost), frontier)
    ∧ (currentCost < v)%Z
    ∧ c_visited st' !! s = Some currentCost.
Proof.
  intros [Hstep|Hstep]; [rewrite ucs_step_astar in Hstep|];
    by eapply relaxation_step.
Qed.

(** C7. When the start state is a goal, each of the four search
    functions returns the empty sequence in its first iteration, with an
    empty log of [getSuccessors] calls. *)
Theorem goal_start_returns_empty problem h fuel :
  isGoalState problem (getStartState problem) = true →
  depthFirstSearch (S fuel) problem = Returned [] []
  ∧ breadthFirstSearch (S fuel) problem = Returned [] []
  ∧ uniformCostSearch (S fuel) problem = Returned [] []
  ∧ aStarSearch (S fuel) problem h = Returned [] [].
Proof.
  intros Hgoal.
  unfold depthFirstSearch, breadthFirstSearch, uniformCostSearch,
    aStarSearch. simpl.
  unfold dfs_step, bfs_step, ucs_step, astar_step. simpl.
  by rewrite Hgoal.
Qed.




(** C9. With a finite reachable state space and non-negative step
    costs, each of the four search functions returns after finitely many
    iterations, cycles or not. *)
Theorem searches_terminate problem h :
  finite_reachable problem → nonneg_costs problem →
  (∃ fuel path calls, depthFirstSearch fuel problem = Returned path calls)
  ∧ (∃ fuel path calls,
       breadthFirstSearch fuel problem = Returned path calls)
  ∧ (∃ fuel path calls,
       uniformCostSearch fuel problem = Returned path calls)
  ∧ (∃ fuel path calls, aStarSearch fuel problem h = Returned path calls).
Proof.
  intros Hfin Hcosts. repeat split.
  - apply (u_terminates problem _ (dfs_ustep problem) Hfin).
  - apply (u_terminates problem _ (bfs_ustep problem) Hfin).
  - destruct (c_terminates problem nullHeuristic Hfin Hcosts)
      as (fuel & path & calls & Hrun).
    exists fuel, path, calls. by rewrite ucs_astar.
  - apply (c_terminates problem h Hfin Hcosts).
Qed.

(** C10. Two problems that differ at most in the step costs of their
    successor triples get the same answer from [depthFirstSearch], and
    the same answer from [breadthFirstSearch], after any number of
    iterations. *)
Theorem uninformed_ignore_costs (p1 p2 : SearchProblem State Action) fuel :
  same_but_costs p1 p2 →
  depthFirstSearch fuel p1 = depthFirstSearch fuel p2
  ∧ breadthFirstSearch fuel p1 = breadthFirstSearch fuel p2.
Proof.
  intros Hsame. pose proof Hsame as (Hstart & _).
  unfold depthFirstSearch, breadthFirstSearch, dfs_init, bfs_init.
  rewrite Hstart. split; apply run_ext; intros st.
  - by apply dfs_step_costs.
  - by apply bfs_step_costs.
Qed.
End Searches.

(** ** The example problems *)

Section Examples.
Implicit Types (s : node) (succs : node → list (node * move * Z)).

(** Case analysis on the membership of a triple in a literal list. *)
Ltac edges Hin :=
  simpl in Hin;
  repeat (apply elem_of_cons in Hin as [[= -> -> ->]|Hin]);
  try (by apply elem_of_nil in Hin).

Lemma graph_finite (problem : SearchProblem node move) :
  finite_reachable problem.
Proof.
  exists {[nStart; nA; nB; nGoal]}. intros s _.
  destruct s; set_solver.
Qed.

Lemma walk_cost_replay start goal succs s actions final total :
  replay (graph_problem start goal succs) s actions = Some (final, total) →
  walk_cost succs s actions = total.
Proof.
  revert s total.
  induction actions as [|a actions IH]; intros s total; simpl.
  - by intros [= _ <-].
  - destruct (triple_for a (succs s)) as [[s1 c1]|]; [|done].
    destruct (replay (graph_problem start goal succs) s1 actions)
      as [[s2 c2]|] eqn:Hrest; [|done].
    intros [= -> <-]. by rewrite (IH _ _ Hrest).
Qed.

Lemma graph_coherent start goal succs :
  cost_coherent (graph_problem start goal succs).
Proof. intros actions final total. apply walk_cost_replay. Qed.

(** A consistent heuristic that is at most zero on the goal states is
    admissible. *)
Lemma consistent_admissible (problem : SearchProblem node move) h :
  consistent problem h →
  (∀ s, isGoalState problem s = true → (h s problem ≤ 0)%Z) →
  admissible problem h.
Proof.
  intros Hcons Hgoal s actions. revert s.
  induction actions as [|a actions IH];
    intros s total Hs (final & Hrep & Hfinal); simpl in Hrep.
  - injection Hrep as <- <-. by apply Hgoal.
  - destruct (triple_for a (getSuccessors problem s)) as [[s1 c1]|] eqn:Ha;
      [|done].
    destruct (replay problem s1 actions) as [[s2 c2]|] eqn:Hrest; [|done].
    injection Hrep as -> <-. apply triple_for_elem in Ha.
    pose proof (Hcons _ _ _ _ Hs Ha).
    assert (reachable problem s1) as Hs1 by by eapply reach_step.
    assert (solves problem s1 actions c2) as Hsol by by exists final.
    pose proof (IH _ _ Hs1 Hsol). lia.
Qed.

Lemma diamond_nonneg : nonneg_costs diamond.
Proof. intros s s' a c _ Hin. destruct s; edges Hin; lia. Qed.

Lemma diamond_goal_reachable : goal_reachable diamond.
Proof.
  exists nGoal. split; [|done].
  apply (reach_step diamond nB nGoal East 1%Z); [|set_solver].
  apply (reach_step diamond nStart nB South 2%Z); [|set_solver].
  apply (reach_start diamond).
Qed.

Lemma diamond_deterministic : deterministic diamond.
Proof.
  intros s _. by destruct s; apply (bool_decide_unpack _).
Qed.

Lemma diamond_h_goals : nonneg_at_goals diamond diamond_h.
Proof. intros s _ _. by destruct s. Qed.

Lemma diamond_h_consistent : consistent diamond diamond_h.
Proof. intros s s' a c _ Hin. destruct s; edges Hin; simpl; lia. Qed.

Lemma diamond_h_admissible : admissible diamond diamond_h.
Proof.
  apply consistent_admissible; [apply diamond_h_consistent|].
  by intros [].
Qed.

Lemma diamond_flat_same : same_but_costs diamond diamond_flat.
Proof. split; [done|]. split; [done|]. by intros []. Qed.

Lemma two_goals_nonneg : nonneg_costs two_goals.
Proof. intros s s' a c _ Hin. destruct s; edges Hin; lia. Qed.

Lemma two_goals_goal_reachable : goal_reachable two_goals.
Proof.
  exists nA. split; [|done].
  apply (reach_step two_goals nStart nA North 10%Z); [|by left].
  apply (reach_start two_goals).
Qed.

Lemma two_goals_deterministic : deterministic two_goals.
Proof. intros s _. by destruct s; apply (bool_decide_unpack _). Qed.

Lemma eager_h_consistent : consistent two_goals eager_h.
Proof. intros s s' a c _ Hin. destruct s; edges Hin; simpl; lia. Qed.

Lemma eager_h_admissible : admissible two_goals eager_h.
Proof.
  apply consistent_admissible; [apply eager_h_consistent|].
  by intros [].
Qed.

(** Outside the heuristic contract: [eager_h] is admissible and
    consistent on [two_goals] and negative at the goal [nA];
    [aStarSearch] then returns [[North]] at cost 10 while
    [[South; East]] reaches a goal at cost 2. The values of at least
    zero of the contract are what the least cost of the returned
    sequence rests on. *)
Lemma eager_h_returns_dearer :
  admissible two_goals eager_h ∧ consistent two_goals eager_h
  ∧ aStarSearch 2 two_goals eager_h = Returned [North] [nStart]
  ∧ getCostOfActions two_goals [North] = 10%Z
  ∧ solves two_goals (getStartState two_goals) [South; East] 2.
Proof.
  split; [apply eager_h_admissible|]. split; [apply eager_h_consistent|].
  split; [by vm_compute|]. split; [done|]. by exists nGoal.
Qed.

Lemma cyclic_reachable s : reachable cyclic s → s = nStart ∨ s = nA.
Proof.
  induction 1 as [|s s' a c _ [-> | ->] Hin]; [by left|..]; edges Hin; auto.
Qed.

Lemma cyclic_no_goal s : reachable cyclic s → isGoalState cyclic s = false.
Proof. by intros [-> | ->]%cyclic_reachable. Qed.

Lemma cyclic_nonneg : nonneg_costs cyclic.
Proof. intros s s' a c _ Hin. destruct s; edges Hin; lia. Qed.

Lemma negloop_reachable s : reachable negloop s → s = nStart.
Proof. induction 1 as [|s s' a c _ -> Hin]; [done|]. by edges Hin. Qed.

Lemma negloop_no_goal s :
  reachable negloop s → isGoalState negloop s = false.
Proof. by intros ->%negloop_reachable. Qed.

(** On [negloop] every iteration of [uniformCostSearch] after the first
    finds the state recorded at a larger cost than the popped one,
    expands it, and inserts a still cheaper entry. *)
Lemma negloop_spins fuel g v visited path calls :
  visited !! nStart = Some v → (g < v)%Z →
  run (ucs_step negloop) fuel
    {| c_frontier := [(g, (nStart, path, g))];
       c_visited := visited;
       c_calls := calls |}
  = OutOfFuel.
Proof.
  revert g v visited path calls.
  induction fuel as [|fuel IH]; intros g v visited path calls Hv Hlt; [done|].
  assert (better visited nStart g = true) as Hpop.
  { unfold better. rewrite Hv. by apply bool_decide_eq_true_2. }
  assert (better (<[nStart:=g]> visited) nStart (g + -1) = true) as Hpush.
  { unfold better. rewrite lookup_insert_eq.
    apply bool_decide_eq_true_2. lia. }
  simpl. unfold ucs_step at 1. simpl.
  rewrite !improves_better, Hpop. simpl. rewrite Hpush. simpl.
  apply (IH _ g); [apply lookup_insert_eq | lia].
Qed.

(** Outside the interface: on the negative self-loop of [negloop],
    which has one reachable state and no goal, [uniformCostSearch] never
    returns. The non-negative step costs of the interface are what the
    return of the cost-aware loops rests on. *)
Lemma negloop_never_returns fuel : uniformCostSearch fuel negloop = OutOfFuel.
Proof.
  destruct fuel as [|fuel]; [done|].
  assert (better (∅ : gmap node Z) nStart 0 = true) as Hpop by done.
  assert (better (<[nStart:=0%Z]> (∅ : gmap node Z)) nStart (0 + -1) = true)
    as Hpush.
  { unfold better. by rewrite lookup_insert_eq. }
  unfold uniformCostSearch. simpl. unfold ucs_step at 1. simpl.
  rewrite !improves_better, Hpop. simpl. rewrite Hpush. simpl.
  apply (negloop_spins _ _ 0%Z); [apply lookup_insert_eq | lia].
Qed.
End Examples.

(** ** Counterexample *)

(** C4, as stated, fails: in the first iteration of [uniformCostSearch] on
    [cyclic] the start state passes the skip-check, and its successor
    triple [(nStart, West, 1)] yields no frontier entry, the start state
    being recorded at cost 0. *)
Lemma expansion_drops_successor :
  ¬ ucs_pushes_every_successor cyclic (ucs_init cyclic).
Proof.
  intros Hall.
  assert (ucs_step cyclic (ucs_init cyclic)
          = Continue {| c_frontier := [(1%Z, (nA, [North], 1%Z))];
                        c_visited := <[nStart := 0%Z]> ∅;
                        c_calls := [nStart] |}) as Hstep
    by (vm_compute; reflexivity).
  assert ((nStart, West, 1%Z) ∈ getSuccessors cyclic nStart) as Hin
    by (simpl; set_solver).
  pose proof (Hall nStart [] 0%Z [] _ eq_refl eq_refl eq_refl Hstep
                _ _ _ Hin) as Hpushed.
  simpl in Hpushed. by apply list_elem_of_singleton in Hpushed.
Qed.

(** ** The theorems at the example problems *)

Lemma cost_aware_optimal_witness :
  (∃ fuel path calls,
     uniformCostSearch fuel diamond = Returned path calls
     ∧ min_goal_cost diamond (getCostOfActions diamond path))
  ∧ (∃ fuel path calls,
       aStarSearch fuel diamond diamond_h = Returned path calls
       ∧ min_goal_cost diamond (getCostOfActions diamond path)).
Proof.
  apply (cost_aware_optimal diamond diamond_h).
  - apply diamond_nonneg.
  - apply graph_finite.
  - apply diamond_goal_reachable.
  - apply diamond_deterministic.
  - apply graph_coherent.
  - apply diamond_h_admissible.
  - apply diamond_h_consistent.
  - apply diamond_h_goals.
Defined.

Lemma returned_path_valid_witness :
  ([South; East] ≠ [] →
     ∃ final total,
       replay diamond (getStartState diamond) [South; East]
         = Some (final, total)
       ∧ isGoalState diamond final = true)
  ∧ ([South; East] = [] →
     isGoalState diamond (getStartState diamond) = true
     ∨ ¬ goal_reachable diamond).
Proof.
  apply (returned_path_valid diamond diamond_h 10 [South; East] [nStart; nB]).
  - apply diamond_deterministic.
  - left. vm_compute. reflexivity.
Defined.

Lemma astar_null_is_ucs_witness :
  (∀ fuel,
     aStarSearch fuel diamond nullHeuristic = uniformCostSearch fuel diamond)
  ∧ (∀ fuel fuel' path path' calls calls',
       aStarSearch fuel diamond nullHeuristic = Returned path calls →
       uniformCostSearch fuel' diamond = Returned path' calls' →
       getCostOfActions diamond path = getCostOfActions diamond path').
Proof. apply (astar_null_is_ucs diamond). Defined.

Lemma expansion_guarded_witness :
  let visited : gmap node Z := <[nStart := 0%Z]> ∅ in
  (∃ st',
     astar_step cyclic diamond_h (ucs_init cyclic) = Continue st'
     ∧ c_visited st' = visited
     ∧ ∀ e, e ∈ c_frontier st' ↔
         e ∈ []
         ∨ ∃ nextState action cost,
             (nextState, action, cost) ∈ getSuccessors cyclic nStart
             ∧ improves visited nextState (0 + cost) = Ok true
             ∧ e = ((0 + cost + diamond_h nextState cyclic)%Z,
                    (nextState, [] ++ [action], (0 + cost)%Z)))
  ∧ (∃ st',
       ucs_step cyclic (ucs_init cyclic) = Continue st'
       ∧ c_visited st' = visited
       ∧ ∀ e, e ∈ c_frontier st' ↔
           e ∈ []
           ∨ ∃ nextState action cost,
               (nextState, action, cost) ∈ getSuccessors cyclic nStart
               ∧ improves visited nextState (0 + cost) = Ok true
               ∧ e = ((0 + cost)%Z,
                      (nextState, [] ++ [action], (0 + cost)%Z))).
Proof.
  apply (expansion_guarded cyclic diamond_h (ucs_init cyclic) nStart [] 0%Z []).
  - reflexivity.
  - reflexivity.
  - vm_compute. reflexivity.
Defined.

Lemma reexpansion_strictly_cheaper_witness :
  ∃ path currentCost frontier,
    PriorityQueue.pop (c_frontier detour_state)
      = Ok ((nB, path, currentCost), frontier)
    ∧ (currentCost < 5)%Z
    ∧ c_visited detour_state_next !! nB = Some currentCost.
Proof.
  apply (reexpansion_strictly_cheaper detour detour_h
           detour_state detour_state_next nB 5%Z).
  - right. vm_compute. reflexivity.
  - vm_compute. reflexivity.
  - reflexivity.
Defined.

Lemma goal_start_returns_empty_witness :
  depthFirstSearch 1 at_goal = Returned [] []
  ∧ breadthFirstSearch 1 at_goal = Returned [] []
  ∧ uniformCostSearch 1 at_goal = Returned [] []
  ∧ aStarSearch 1 at_goal diamond_h = Returned [] [].
Proof.
  apply (goal_start_returns_empty at_goal diamond_h 0). reflexivity.
Defined.


Lemma searches_terminate_witness :
  (∃ fuel path calls, depthFirstSearch fuel cyclic = Returned path calls)
  ∧ (∃ fuel path calls, breadthFirstSearch fuel cyclic = Returned path calls)
  ∧ (∃ fuel path calls, uniformCostSearch fuel cyclic = Returned path calls)
  ∧ (∃ fuel path calls,
       aStarSearch fuel cyclic diamond_h = Returned path calls).
Proof.
  apply (searches_terminate cyclic diamond_h).
  - apply graph_finite.
  - apply cyclic_nonneg.
Defined.

Lemma uninformed_ignore_costs_witness :
  depthFirstSearch 10 diamond = depthFirstSearch 10 diamond_flat
  ∧ breadthFirstSearch 10 diamond = breadthFirstSearch 10 diamond_flat.
Proof.
  apply (uninformed_ignore_costs diamond diamond_flat 10), diamond_flat_same.
Defined.

(** * Further properties of the searches *)

(** ** What the loops log and keep *)

Section RunMore.
Context {St State Action : Type}.
Implicit Types (step : St → outcome St State Action) (st : St).

Lemma steps_ext step1 step2 st st' :
  (∀ st0, step1 st0 = step2 st0) →
  steps step1 st st' → steps step2 st st'.
Proof.
  intros Hext. induction 1 as [|st1 st2 st3 Hstep _ IH]; [constructor|].
  eapply steps_next; [|done]. by rewrite <- Hext.
Qed.
End RunMore.

Lemma NoDup_length_size `{Countable K} (l : list K) (X : gset K) :
  NoDup l → (∀ x, x ∈ l → x ∈ X) → length l ≤ size X.
Proof.
  intros Hnd Hsub. rewrite <- (size_list_to_set (C:=gset K) l) by done.
  apply subseteq_size. intros x ?%elem_of_list_to_set. auto.
Qed.

Section UninformedMore.
Context {State Action : Type} `{Countable State} `{EqDecision Action}.
Variable problem : SearchProblem State Action.
Variable step :
  ustate State Action → outcome (ustate State Action) State Action.
Hypothesis step_sound : ∀ st, ustep problem st (step st).
Implicit Types (s : State) (path : list Action) (st : ustate State Action).

Lemma u_steps_visited_logged st :
  steps step (u_init problem) st → ∀ s, s ∈ u_visited st → s ∈ u_calls st.
Proof.
  apply (steps_invariant step
           (λ st, ∀ s, s ∈ u_visited st → s ∈ u_calls st)).
  - intros st1 st2 HI Hstep%(step_continue problem step step_sound).
    ustep_cases Hstep; simpl; [done|].
    intros x [->%elem_of_singleton|Hx]%elem_of_union; apply elem_of_app.
    + right. by apply list_elem_of_singleton.
    + left. auto.
  - simpl. by intros s ?%not_elem_of_empty.
Qed.

(** A logged state is reachable and is not a goal. *)
Lemma u_steps_log_sound st s :
  steps step (u_init problem) st → s ∈ u_calls st →
  reachable problem s ∧ isGoalState problem s = false.
Proof.
  intros Hsteps Hs.
  destruct (u_steps_logged problem step step_sound _ Hsteps) as [_ Hvis].
  destruct (u_steps_reach problem step step_sound _ Hsteps) as [_ Hreach].
  destruct (u_steps_complete problem step step_sound _ Hsteps) as [_ Hgoal].
  split; [by apply Hreach, Hvis|]. by destruct (Hgoal s (Hvis s Hs)).
Qed.

Lemma u_run_complete :
  finite_reachable problem → goal_reachable problem →
  deterministic problem →
  ∃ fuel path calls total,
    run step fuel (u_init problem) = Returned path calls
    ∧ solves problem (getStartState problem) path total.
Proof.
  intros Hfin Hgoal Hdet.
  destruct (u_terminates problem step step_sound Hfin)
    as (fuel & path & calls & Hrun).
  destruct (u_returned_valid problem step step_sound _ _ _ Hdet Hrun)
    as [Hne He].
  destruct path as [|a path].
  - destruct He as [Hstart|Hno]; [done| |done].
    exists fuel, [], calls, 0%Z. split; [done|].
    by exists (getStartState problem).
  - destruct Hne as [total Hsol]; [done|].
    by exists fuel, (a :: path), calls, total.
Qed.

(** When no goal is reachable the loop ends with every reachable state
    logged, once. *)
Lemma u_run_exhaustive :
  finite_reachable problem →
  (∀ s, reachable problem s → isGoalState problem s = false) →
  ∃ fuel calls,
    run step fuel (u_init problem) = Returned [] calls
    ∧ NoDup calls ∧ ∀ s, s ∈ calls ↔ reachable problem s.
Proof.
  intros Hfin Hnogoal.
  destruct (u_terminates problem step step_sound Hfin)
    as (fuel & path & calls & Hrun).
  exists fuel, calls.
  destruct (u_return_cases problem step step_sound _ _ _ Hrun)
    as (st & Hsteps & -> & Hcases).
  destruct (u_steps_reach problem step step_sound _ Hsteps) as [Hfr Hvis].
  destruct Hcases as [[-> Hempty]|(s & Hin & Hgoal)].
  - split; [done|].
    destruct (u_steps_logged problem step step_sound _ Hsteps) as [Hnd Hlog].
    split; [done|]. intros s. split.
    + intros Hs. by apply Hvis, Hlog.
    + intros Hs. apply (u_steps_visited_logged _ Hsteps).
      eapply u_complete_closed; [|done..].
      by apply (u_steps_complete problem step step_sound).
  - rewrite (Hnogoal s) in Hgoal; [done|]. by eapply Hfr.
Qed.

Lemma u_steps_calls_bounded (universe : gset State) st :
  (∀ s, reachable problem s → s ∈ universe) →
  steps step (u_init problem) st →
  length (u_calls st) ≤ size universe.
Proof.
  intros Huniv Hsteps.
  destruct (u_steps_logged problem step step_sound _ Hsteps) as [Hnd _].
  apply NoDup_length_size; [done|].
  intros s Hs. by apply Huniv, (u_steps_log_sound st).
Qed.
End UninformedMore.

Section CostAwareMore.
Context {State Action : Type} `{Countable State} `{EqDecision Action}.
Variable problem : SearchProblem State Action.
Variable h : heuristic State Action.
Implicit Types (s : State) (path : list Action) (st : cstate State Action).

Abbreviation astep := (astar_step problem h).
Abbreviation ainit := (astar_init problem h).

Lemma c_steps_logged st :
  steps astep ainit st → ∀ s, s ∈ c_calls st ↔ s ∈ dom (c_visited st).
Proof.
  apply (steps_invariant astep
           (λ st, ∀ s, s ∈ c_calls st ↔ s ∈ dom (c_visited st))).
  - intros st1 st2 HI Hstep%astep_continue.
    cstep_cases Hstep; simpl; [done|].
    intros x. rewrite elem_of_app, list_elem_of_singleton, dom_insert_L,
      elem_of_union, elem_of_singleton, HI. tauto.
  - simpl. intros s. rewrite dom_empty_L. split.
    + by intros ?%elem_of_nil.
    + by intros ?%not_elem_of_empty.
Qed.

Lemma c_steps_log_sound st s :
  steps astep ainit st → s ∈ c_calls st →
  reachable problem s ∧ isGoalState problem s = false.
Proof.
  intros Hsteps Hs. apply (c_steps_logged _ Hsteps) in Hs.
  destruct (c_steps_reach problem h _ Hsteps) as [_ Hreach].
  destruct (c_steps_complete problem h _ Hsteps) as [_ Hgoal].
  split; [|by destruct (Hgoal s Hs)].
  apply elem_of_dom in Hs as [v Hv]. by eapply Hreach.
Qed.

Lemma c_run_complete :
  finite_reachable problem → nonneg_costs problem →
  goal_reachable problem → deterministic problem →
  ∃ fuel path calls total,
    run astep fuel ainit = Returned path calls
    ∧ solves problem (getStartState problem) path total.
Proof.
  intros Hfin Hcosts Hgoal Hdet.
  destruct (c_terminates problem h Hfin Hcosts)
    as (fuel & path & calls & Hrun).
  destruct (c_returned_valid problem h _ _ _ Hdet Hrun) as [Hne He].
  destruct path as [|a path].
  - destruct He as [Hstart|Hno]; [done| |done].
    exists fuel, [], calls, 0%Z. split; [done|].
    by exists (getStartState problem).
  - destruct Hne as [total Hsol]; [done|].
    by exists fuel, (a :: path), calls, total.
Qed.
End CostAwareMore.

Section SearchesMore.
Context {State Action : Type} `{Countable State} `{EqDecision Action}.
Implicit Types (problem : SearchProblem State Action)
  (h : heuristic State Action) (s : State) (path : list Action).

Lemma ucs_steps_astar problem (st : cstate State Action) :
  steps (ucs_step problem) (ucs_init problem) st →
  steps (astar_step problem nullHeuristic)
        (astar_init problem nullHeuristic) st.
Proof. apply steps_ext, ucs_step_astar. Qed.

(** X1. Completeness of the uninformed searches: with a finite reachable
    state space and a reachable goal, on a well-behaved problem,
    [depthFirstSearch] and [breadthFirstSearch] return a sequence that,
    replayed from the start state, ends in a goal state. *)
Theorem uninformed_complete problem :
  finite_reachable problem → goal_reachable problem →
  deterministic problem →
  (∃ fuel path calls total,
     depthFirstSearch fuel problem = Returned path calls
     ∧ solves problem (getStartState problem) path total)
  ∧ (∃ fuel path calls total,
       breadthFirstSearch fuel problem = Returned path calls
       ∧ solves problem (getStartState problem) path total).
Proof.
  intros Hfin Hgoal Hdet. split.
  - apply (u_run_complete problem _ (dfs_ustep problem) Hfin Hgoal Hdet).
  - apply (u_run_complete problem _ (bfs_ustep problem) Hfin Hgoal Hdet).
Qed.

(** X2. Completeness of the cost-aware searches: with non-negative step
    costs, a finite reachable state space and a reachable goal, on a
    well-behaved problem, [uniformCostSearch] and [aStarSearch] (whatever
    the heuristic) return a sequence that, replayed from the start state,
    ends in a goal state. *)
Theorem cost_aware_complete problem h :
  finite_reachable problem → nonneg_costs problem →
  goal_reachable problem → deterministic problem →
  (∃ fuel path calls total,
     uniformCostSearch fuel problem = Returned path calls
     ∧ solves problem (getStartState problem) path total)
  ∧ (∃ fuel path calls total,
       aStarSearch fuel problem h = Returned path calls
       ∧ solves problem (getStartState problem) path total).
Proof.
  intros Hfin Hcosts Hgoal Hdet. split.
  - destruct (c_run_complete problem nullHeuristic Hfin Hcosts Hgoal Hdet)
      as (fuel & path & calls & total & Hrun & Hsol).
    exists fuel, path, calls, total. by rewrite ucs_astar.
  - apply (c_run_complete problem h Hfin Hcosts Hgoal Hdet).
Qed.

(** X3. In [depthFirstSearch] and [breadthFirstSearch], after any number
    of iterations, the path of every frontier entry leads from the start
    state to the state of the entry. *)
Theorem uninformed_frontier_valid problem :
  deterministic problem →
  (∀ st s path,
     steps (dfs_step problem) (dfs_init problem) st →
     (s, path) ∈ u_frontier st →
     ∃ total,
       replay problem (getStartState problem) path = Some (s, total))
  ∧ (∀ st s path,
       steps (bfs_step problem) (bfs_init problem) st →
       (s, path) ∈ u_frontier st →
       ∃ total,
         replay problem (getStartState problem) path = Some (s, total)).
Proof.
  intros Hdet. split; intros st s path Hsteps Hin.
  - by apply (u_steps_valid problem _ (dfs_ustep problem) st Hdet Hsteps).
  - by apply (u_steps_valid problem _ (bfs_ustep problem) st Hdet Hsteps).
Qed.

(** X4. In [uniformCostSearch] and [aStarSearch], after any number of
    iterations, every frontier entry is exact: its path leads from the
    start state to its state, its accumulated cost is the sum of the step
    costs along that path, and its priority is that cost (plus the
    heuristic of its state, in [aStarSearch]). *)
Theorem cost_aware_frontier_exact problem h :
  deterministic problem →
  (∀ st priority s path g,
     steps (ucs_step problem) (ucs_init problem) st →
     (priority, (s, path, g)) ∈ c_frontier st →
     replay problem (getStartState problem) path = Some (s, g)
     ∧ priority = g)
  ∧ (∀ st priority s path g,
       steps (astar_step problem h) (astar_init problem h) st →
       (priority, (s, path, g)) ∈ c_frontier st →
       replay problem (getStartState problem) path = Some (s, g)
       ∧ priority = (g + h s problem)%Z).
Proof.
  intros Hdet. split; intros st priority s path g Hsteps Hin.
  - apply ucs_steps_astar in Hsteps.
    destruct (c_steps_valid problem nullHeuristic st Hdet Hsteps _ Hin)
      as [Hrep Hprio].
    split; [done|].
    unfold e_cost, e_state, nullHeuristic in Hprio. simpl in Hprio. lia.
  - by apply (c_steps_valid problem h st Hdet Hsteps _ Hin).
Qed.

(** X5. None of the four searches ever calls [getSuccessors] on a goal
    state or on a state that the start state does not reach. *)
Theorem expanded_states_nongoal problem h :
  (∀ st s,
     steps (dfs_step problem) (dfs_init problem) st → s ∈ u_calls st →
     reachable problem s ∧ isGoalState problem s = false)
  ∧ (∀ st s,
       steps (bfs_step problem) (bfs_init problem) st → s ∈ u_calls st →
       reachable problem s ∧ isGoalState problem s = false)
  ∧ (∀ st s,
       steps (ucs_step problem) (ucs_init problem) st → s ∈ c_calls st →
       reachable problem s ∧ isGoalState problem s = false)
  ∧ (∀ st s,
       steps (astar_step problem h) (astar_init problem h) st →
       s ∈ c_calls st →
       reachable problem s ∧ isGoalState problem s = false).
Proof.
  split; [|split; [|split]]; intros st s Hsteps Hs.
  - by apply (u_steps_log_sound problem _ (dfs_ustep problem) st).
  - by apply (u_steps_log_sound problem _ (bfs_ustep problem) st).
  - apply ucs_steps_astar in Hsteps.
    by apply (c_steps_log_sound problem nullHeuristic st).
  - by apply (c_steps_log_sound problem h st).
Qed.

(** X6. With a finite reachable state space and no reachable goal,
    [depthFirstSearch] and [breadthFirstSearch] return the empty sequence
    after calling [getSuccessors] on every reachable state exactly once,
    and on no other state. *)
Theorem uninformed_exhaustive problem :
  finite_reachable problem →
  (∀ s, reachable problem s → isGoalState problem s = false) →
  (∃ fuel calls,
     depthFirstSearch fuel problem = Returned [] calls
     ∧ NoDup calls ∧ ∀ s, s ∈ calls ↔ reachable problem s)
  ∧ (∃ fuel calls,
       breadthFirstSearch fuel problem = Returned [] calls
       ∧ NoDup calls ∧ ∀ s, s ∈ calls ↔ reachable problem s).
Proof.
  intros Hfin Hnogoal. split.
  - apply (u_run_exhaustive problem _ (dfs_ustep problem) Hfin Hnogoal).
  - apply (u_run_exhaustive problem _ (bfs_ustep problem) Hfin Hnogoal).
Qed.

(** X7. In [depthFirstSearch] and [breadthFirstSearch] the number of
    [getSuccessors] calls never exceeds the number of states of a finite
    set that holds every reachable state. *)
Theorem uninformed_calls_bounded problem (universe : gset State) :
  (∀ s, reachable problem s → s ∈ universe) →
  (∀ st, steps (dfs_step problem) (dfs_init problem) st →
     length (u_calls st) ≤ size universe)
  ∧ (∀ st, steps (bfs_step problem) (bfs_init problem) st →
       length (u_calls st) ≤ size universe)
  ∧ (∀ fuel path calls,
       depthFirstSearch fuel problem = Returned path calls →
       length calls ≤ size universe)
  ∧ (∀ fuel path calls,
       breadthFirstSearch fuel problem = Returned path calls →
       length calls ≤ size universe).
Proof.
  intros Huniv. split; [|split; [|split]].
  - intros st.
    by apply (u_steps_calls_bounded problem _ (dfs_ustep problem)).
  - intros st.
    by apply (u_steps_calls_bounded problem _ (bfs_ustep problem)).
  - intros fuel path calls Hrun.
    destruct (u_return_cases problem _ (dfs_ustep problem) _ _ _ Hrun)
      as (st & Hsteps & -> & _).
    by apply (u_steps_calls_bounded problem _ (dfs_ustep problem)).
  - intros fuel path calls Hrun.
    destruct (u_return_cases problem _ (bfs_ustep problem) _ _ _ Hrun)
      as (st & Hsteps & -> & _).
    by apply (u_steps_calls_bounded problem _ (bfs_ustep problem)).
Qed.
End SearchesMore.

(** ** Routes of the returned paths *)

Section RouteFacts.
Context {State Action : Type} `{Countable State} `{EqDecision Action}.
Variable problem : SearchProblem State Action.
Implicit Types (s : State) (path : list Action) (states : list State).

Lemma route_head s path states :
  route problem s path = Some states → ∃ states', states = s :: states'.
Proof.
  destruct path as [|a path]; simpl.
  - intros [= <-]. by exists [].
  - destruct (triple_for a (getSuccessors problem s)) as [[s1 c1]|]; [|done].
    destruct (route problem s1 path) as [states1|]; [|done].
    intros [= <-]. by exists states1.
Qed.

Lemma route_length s path states :
  route problem s path = Some states → length states = S (length path).
Proof.
  revert s states. induction path as [|a path IH]; intros s states; simpl.
  - by intros [= <-].
  - destruct (triple_for a (getSuccessors problem s)) as [[s1 c1]|]; [|done].
    destruct (route problem s1 path) as [states1|] eqn:Hrest; [|done].
    intros [= <-]. simpl. by rewrite (IH _ _ Hrest).
Qed.

Lemma route_reachable s path states :
  reachable problem s → route problem s path = Some states →
  ∀ x, x ∈ states → reachable problem x.
Proof.
  revert s states. induction path as [|a path IH]; intros s states Hs; simpl.
  - by intros [= <-] x ->%list_elem_of_singleton.
  - destruct (triple_for a (getSuccessors problem s)) as [[s1 c1]|] eqn:Ha;
      [|done].
    destruct (route problem s1 path) as [states1|] eqn:Hrest; [|done].
    intros [= <-] x [->|Hx]%elem_of_cons; [done|].
    eapply IH; [|done..]. eapply reach_step; [done|].
    by apply triple_for_elem.
Qed.

Lemma route_snoc s path before mid action nextState cost :
  route problem s path = Some (before ++ [mid]) →
  triple_for action (getSuccessors problem mid) = Some (nextState, cost) →
  route problem s (path ++ [action]) = Some (before ++ [mid; nextState]).
Proof.
  intros Hroute Hnext. revert s before Hroute.
  induction path as [|a path IH]; intros s before; simpl.
  - destruct before as [|x before]; simpl.
    + intros [= ->]. by rewrite Hnext.
    + intros [= _ Hnil]. by destruct before.
  - destruct (triple_for a (getSuccessors problem s)) as [[s1 c1]|]; [|done].
    destruct (route problem s1 path) as [states1|] eqn:Hrest; [|done].
    destruct before as [|x before]; simpl.
    + intros [= -> ->]. by apply route_head in Hrest as [? ?].
    + intros [= -> ->]. by rewrite (IH _ _ Hrest).
Qed.
End RouteFacts.

Section UninformedRoutes.
Context {State Action : Type} `{Countable State} `{EqDecision Action}.
Variable problem : SearchProblem State Action.
Variable step :
  ustate State Action → outcome (ustate State Action) State Action.
Hypothesis step_sound : ∀ st, ustep problem st (step st).
Hypothesis well_behaved : deterministic problem.
Implicit Types (s : State) (path : list Action) (st : ustate State Action).

(** The route of a frontier path, without its last state, repeats no
    state and stays among the visited states. *)
Lemma u_steps_simple st s path :
  steps step (u_init problem) st → (s, path) ∈ u_frontier st →
  ∃ before,
    route problem (getStartState problem) path = Some (before ++ [s])
    ∧ NoDup before ∧ ∀ x, x ∈ before → x ∈ u_visited st.
Proof.
  intros Hsteps. revert s path.
  cut (u_reach problem st
       ∧ ∀ s path, (s, path) ∈ u_frontier st →
           ∃ before,
             route problem (getStartState problem) path
               = Some (before ++ [s])
             ∧ NoDup before ∧ ∀ x, x ∈ before → x ∈ u_visited st);
    [by intros []|].
  revert Hsteps.
  apply (steps_invariant step
    (λ st, u_reach problem st
       ∧ ∀ s path, (s, path) ∈ u_frontier st →
           ∃ before,
             route problem (getStartState problem) path
               = Some (before ++ [s])
             ∧ NoDup before ∧ ∀ x, x ∈ before → x ∈ u_visited st)).
  - intros st1 st2 [Hreach HI] Hstep%(step_continue problem step step_sound).
    split; [by eapply u_reach_step|].
    destruct Hreach as [Hfr _].
    ustep_cases Hstep; simpl; intros s1 p1.
    + intros Hmem. apply HI. rewrite Hperm. by right.
    + assert ((s, path) ∈ u_frontier st1) as Hpop.
      { rewrite Hperm. by left. }
      assert (∀ x, x ∈ u_visited st1 → x ∈ {[s]} ∪ u_visited st1) as Hgrow.
      { intros x Hx. apply elem_of_union. by right. }
      rewrite Hfr'. intros [Hmem|Hmem]%elem_of_app.
      * destruct (HI s1 p1) as (before & Hroute & Hnd & Hvis).
        { rewrite Hperm. by right. }
        exists before. eauto.
      * apply elem_of_extend in Hmem as (a & c & Hmem & ->).
        destruct (HI _ _ Hpop) as (before & Hroute & Hnd & Hvis).
        exists (before ++ [s]). split; [|split].
        -- rewrite <- app_assoc.
           apply (route_snoc problem _ _ _ _ _ _ c Hroute).
           apply triple_for_NoDup; [|done]. by eapply well_behaved, Hfr.
        -- apply NoDup_app. split; [done|]. split; [|apply NoDup_singleton].
           intros x Hx ->%list_elem_of_singleton. auto.
        -- intros x [Hx| ->%list_elem_of_singleton]%elem_of_app;
             apply elem_of_union; [right; auto|].
           left. by apply elem_of_singleton.
  - split; [apply u_init_reach|]. simpl.
    intros s path [= -> ->]%list_elem_of_singleton.
    exists []. split; [done|]. split; [constructor|].
    by intros x ?%elem_of_nil.
Qed.

(** The returned path passes through no state twice. *)
Lemma u_run_simple fuel path calls :
  run step fuel (u_init problem) = Returned path calls →
  ∃ states,
    route problem (getStartState problem) path = Some states
    ∧ NoDup states.
Proof.
  intros Hrun.
  destruct (u_return_cases problem step step_sound _ _ _ Hrun)
    as (st & Hsteps & _ & [[-> _]|(s & Hin & Hgoal)]).
  - exists [getStartState problem]. split; [done|]. apply NoDup_singleton.
  - destruct (u_steps_simple _ _ _ Hsteps Hin)
      as (before & Hroute & Hnd & Hvis).
    exists (before ++ [s]). split; [done|].
    apply NoDup_app. split; [done|]. split; [|apply NoDup_singleton].
    intros x Hx ->%list_elem_of_singleton.
    destruct (u_steps_complete problem step step_sound _ Hsteps) as [_ Hng].
    destruct (Hng _ (Hvis _ Hx)) as [Hng' _]. congruence.
Qed.

Lemma u_run_short (universe : gset State) fuel path calls :
  (∀ s, reachable problem s → s ∈ universe) →
  run step fuel (u_init problem) = Returned path calls →
  length path < size universe.
Proof.
  intros Huniv Hrun.
  destruct (u_run_simple _ _ _ Hrun) as (states & Hroute & Hnd).
  pose proof (route_length _ _ _ _ Hroute) as Hlen.
  cut (length states ≤ size universe); [lia|].
  apply NoDup_length_size; [done|].
  intros x Hx. apply Huniv.
  eapply route_reachable; [|done..]. constructor.
Qed.
End UninformedRoutes.

(** ** Expansions under a consistent heuristic *)

Section CostAwareOnce.
Context {State Action : Type} `{Countable State} `{EqDecision Action}.
Variable problem : SearchProblem State Action.
Variable h : heuristic State Action.
Abbreviation centry := (Z * (State * list Action * Z))%type.
Implicit Types (s : State) (path : list Action) (st : cstate State Action)
  (e : centry).

Abbreviation astep := (astar_step problem h).
Abbreviation ainit := (astar_init problem h).

(** An iteration that goes on has popped an entry of least priority. *)
Lemma astar_continue st st' :
  astep st = Continue st' →
  ∃ priority s path g rest,
    c_frontier st ≡ₚ (priority, (s, path, g)) :: rest
    ∧ (∀ e, e ∈ c_frontier st → (priority ≤ e.1)%Z)
    ∧ isGoalState problem s = false
    ∧ ((better (c_visited st) s g = false
        ∧ st' = {| c_frontier := rest;
                   c_visited := c_visited st;
                   c_calls := c_calls st |})
       ∨ (better (c_visited st) s g = true
          ∧ st' = {| c_frontier :=
                       rest ++ pushed problem h (<[s:=g]> (c_visited st))
                                 path g (getSuccessors problem s);
                     c_visited := <[s:=g]> (c_visited st);
                     c_calls := c_calls st ++ [s] |})).
Proof.
  unfold astar_step.
  destruct (PriorityQueue.isEmpty (c_frontier st)); [done|].
  destruct (PriorityQueue.pop (c_frontier st)) as [[[[s path] g] rest]|e]
    eqn:Hpop; [|done].
  apply pq_pop_Ok in Hpop as (priority & Hperm & Hmin).
  destruct (isGoalState problem s) eqn:Hgoal; [done|].
  rewrite improves_better.
  destruct (better (c_visited st) s g) eqn:Hb.
  - rewrite expansion_pushed. intros [= <-].
    exists priority, s, path, g, rest. repeat split; auto.
  - intros [= <-]. exists priority, s, path, g, rest. repeat split; auto.
Qed.

(** Under a consistent heuristic the frontier lies above the records:
    the priority of an entry is its cost plus the heuristic of its state,
    and is at least the recorded cost of any state plus the heuristic of
    that state. *)
Lemma c_steps_ordered st :
  consistent problem h → steps astep ainit st →
  (∀ e, e ∈ c_frontier st → e.1 = (e_cost e + h (e_state e) problem)%Z)
  ∧ (∀ s v e, c_visited st !! s = Some v → e ∈ c_frontier st →
       (v + h s problem ≤ e.1)%Z).
Proof.
  intros Hcons Hsteps.
  cut (c_reach problem st
       ∧ (∀ e, e ∈ c_frontier st →
            e.1 = (e_cost e + h (e_state e) problem)%Z)
       ∧ (∀ s v e, c_visited st !! s = Some v → e ∈ c_frontier st →
            (v + h s problem ≤ e.1)%Z));
    [by intros (_ & ? & ?)|].
  revert Hsteps.
  apply (steps_invariant astep
    (λ st, c_reach problem st
       ∧ (∀ e, e ∈ c_frontier st →
            e.1 = (e_cost e + h (e_state e) problem)%Z)
       ∧ (∀ s v e, c_visited st !! s = Some v → e ∈ c_frontier st →
            (v + h s problem ≤ e.1)%Z))).
  - intros st1 st2 (Hreach & Hprio & Hord) Hstep.
    split; [eapply c_reach_step; [done|by apply astep_continue]|].
    destruct Hreach as [Hfr _].
    apply astar_continue in Hstep
      as (p & s & path & g & rest & Hperm & Hmin & Hgoal & Hcases).
    assert ((p, (s, path, g)) ∈ c_frontier st1) as Hpop.
    { rewrite Hperm. by left. }
    assert (∀ e, e ∈ rest → e ∈ c_frontier st1) as Hrest.
    { intros e He. rewrite Hperm. by right. }
    pose proof (Hprio _ Hpop) as Hp. pose proof (Hfr _ Hpop) as Hs.
    unfold e_cost, e_state in Hp, Hs. simpl in Hp, Hs.
    destruct Hcases as [[Hb ->]|[Hb ->]]; simpl.
    + split; [auto|]. intros s1 v e Hv He. eauto.
    + assert (∀ e, e ∈ pushed problem h (<[s:=g]> (c_visited st1)) path g
                         (getSuccessors problem s) →
                e.1 = (e_cost e + h (e_state e) problem)%Z
                ∧ (p ≤ e.1)%Z) as Hnew.
      { intros e ([[s1 a] c] & Hin & _ & ->)%elem_of_pushed.
        split; [done|]. simpl.
        pose proof (Hcons _ _ _ _ Hs Hin). lia. }
      split.
      * intros e [He|He]%elem_of_app; [auto|]. by apply Hnew.
      * intros s1 v e. rewrite lookup_insert. case_decide as Heq.
        -- subst s1. intros [= <-] [He|He]%elem_of_app.
           ++ specialize (Hmin _ (Hrest _ He)). lia.
           ++ destruct (Hnew _ He). lia.
        -- intros Hv [He|He]%elem_of_app; [eauto|].
           destruct (Hnew _ He). specialize (Hord _ _ _ Hv Hpop).
           simpl in Hord. lia.
  - split; [apply c_init_reach|]. split.
    + by intros e ->%ainit_frontier.
    + intros s v e. simpl. by rewrite lookup_empty.
Qed.

(** Under a consistent heuristic a state is expanded when it has no
    record yet, and only then. *)
Lemma c_steps_once st :
  consistent problem h → steps astep ainit st → NoDup (c_calls st).
Proof.
  intros Hcons Hsteps.
  cut (steps astep ainit st ∧ NoDup (c_calls st)); [by intros []|].
  revert Hsteps.
  apply (steps_invariant astep
           (λ st, steps astep ainit st ∧ NoDup (c_calls st))).
  - intros st1 st2 [Hsteps Hnd] Hstep. split.
    { clear -Hsteps Hstep. induction Hsteps as [|? ? ? ? ? IH].
      - eapply steps_next; [done|constructor].
      - eapply steps_next; [done|]. by apply IH. }
    destruct (c_steps_ordered _ Hcons Hsteps) as [Hprio Hord].
    pose proof (c_steps_logged problem h _ Hsteps) as Hlog.
    apply astar_continue in Hstep
      as (p & s & path & g & rest & Hperm & Hmin & Hgoal & Hcases).
    assert ((p, (s, path, g)) ∈ c_frontier st1) as Hpop.
    { rewrite Hperm. by left. }
    destruct Hcases as [[Hb ->]|[Hb ->]]; simpl; [done|].
    apply NoDup_app. split; [done|]. split; [|apply NoDup_singleton].
    intros x Hx ->%list_elem_of_singleton.
    apply Hlog, elem_of_dom in Hx as [v Hv].
    pose proof (better_true _ _ _ _ Hb Hv) as Hlt.
    pose proof (Hord _ _ _ Hv Hpop) as Hle.
    pose proof (Hprio _ Hpop) as Hp.
    unfold e_cost, e_state in Hp. simpl in Hle, Hp. lia.
  - split; [constructor|]. simpl. constructor.
Qed.

Lemma c_run_once fuel path calls :
  consistent problem h →
  run astep fuel ainit = Returned path calls → NoDup calls.
Proof.
  intros Hcons (st & Hsteps & -> & _)%c_return_cases.
  by apply c_steps_once.
Qed.

Lemma c_steps_calls_bounded (universe : gset State) st :
  consistent problem h →
  (∀ s, reachable problem s → s ∈ universe) →
  steps astep ainit st → length (c_calls st) ≤ size universe.
Proof.
  intros Hcons Huniv Hsteps.
  apply NoDup_length_size; [by apply c_steps_once|].
  intros s Hs. by apply Huniv, (c_steps_log_sound problem h st).
Qed.

(** When no goal is reachable the loop ends with every reachable state
    logged. *)
Lemma c_run_exhaustive :
  finite_reachable problem → nonneg_costs problem →
  (∀ s, reachable problem s → isGoalState problem s = false) →
  ∃ fuel calls,
    run astep fuel ainit = Returned [] calls
    ∧ ∀ s, s ∈ calls ↔ reachable problem s.
Proof.
  intros Hfin Hcosts Hnogoal.
  destruct (c_terminates problem h Hfin Hcosts)
    as (fuel & path & calls & Hrun).
  exists fuel, calls.
  destruct (c_return_cases problem h _ _ _ Hrun)
    as (st & Hsteps & -> & Hcases).
  destruct (c_steps_reach problem h _ Hsteps) as [Hfr _].
  destruct Hcases as [[-> Hempty]|(p & s & g & Hin & _ & Hgoal)].
  - split; [done|]. intros s. split.
    + intros Hs. by apply (c_steps_log_sound problem h st).
    + intros Hs. apply (c_steps_logged problem h _ Hsteps).
      eapply c_complete_closed; [|done..].
      by apply (c_steps_complete problem h).
  - rewrite (Hnogoal s) in Hgoal; [done|]. by apply (Hfr _ Hin).
Qed.
End CostAwareOnce.

Section NullHeuristic.
Context {State Action : Type} `{Countable State} `{EqDecision Action}.
Variable problem : SearchProblem State Action.

Lemma null_consistent :
  nonneg_costs problem → consistent problem nullHeuristic.
Proof.
  intros Hcosts s s' a c Hs Hin. unfold nullHeuristic.
  pose proof (Hcosts _ _ _ _ Hs Hin). lia.
Qed.
End NullHeuristic.

(** ** Breadth-first search finds a shortest path *)

Section BreadthFirstLevels.
Context {State Action : Type} `{Countable State} `{EqDecision Action}.
Variable problem : SearchProblem State Action.
Abbreviation entry := (State * list Action)%type.
Abbreviation centry := (Z * (State * list Action * Z))%type.
Implicit Types (s : State) (path : list Action) (st : ustate State Action).

Lemma triple_for_unit action (succs : list (State * Action * Z)) :
  triple_for action ((λ t : State * Action * Z, (t.1, 1%Z)) <$> succs)
  = (λ r : State * Z, (r.1, 1%Z)) <$> triple_for action succs.
Proof.
  induction succs as [|[[s a] c] succs IH]; simpl; [done|].
  by case_decide.
Qed.

Lemma replay_unit s actions :
  replay (unit_costs problem) s actions
  = (λ r : State * Z, (r.1, Z.of_nat (length actions)))
      <$> replay problem s actions.
Proof.
  revert s. induction actions as [|a actions IH]; intros s; simpl; [done|].
  rewrite triple_for_unit.
  destruct (triple_for a (getSuccessors problem s)) as [[s1 c1]|]; [|done].
  simpl. rewrite IH.
  destruct (replay problem s1 actions) as [[s2 c2]|]; [|done].
  simpl. do 2 f_equal. lia.
Qed.

Lemma solves_unit s actions total :
  solves problem s actions total →
  solves (unit_costs problem) s actions (Z.of_nat (length actions)).
Proof.
  intros (final & Hrep & Hgoal). exists final.
  by rewrite replay_unit, Hrep.
Qed.

Lemma solves_unit_total s actions total :
  solves (unit_costs problem) s actions total →
  total = Z.of_nat (length actions).
Proof.
  intros (final & Hrep & _). rewrite replay_unit in Hrep.
  destruct (replay problem s actions) as [[s2 c2]|]; [|done].
  by injection Hrep as _ <-.
Qed.

(** The covering of a budget moves from one frontier to the next as the
    records do. *)
Lemma covers_transfer (target : SearchProblem State Action)
    (frontier frontier' : list centry) (visited' : gmap State Z)
    (e0 : centry) n budget :
  (∀ e, e ∈ frontier → e = e0 ∨ e ∈ frontier') →
  (∃ v0, visited' !! e_state e0 = Some v0 ∧ (v0 ≤ e_cost e0)%Z) →
  (∀ s v actions total,
     visited' !! s = Some v → solves target s actions total →
     covers target (length actions) frontier' (v + total)) →
  covers target n frontier budget → covers target n frontier' budget.
Proof.
  intros Hkeep (v0 & Hv0 & Hle0) Hrec
    (e & actions & total & He & Hsol & Hlen & Hle).
  destruct (Hkeep _ He) as [->|He'].
  - eapply covers_mono; [| |apply (Hrec _ _ _ _ Hv0 Hsol)]; lia.
  - by exists e, actions, total.
Qed.

Lemma bfs_continue st st' :
  bfs_step problem st = Continue st' →
  ∃ s path rest,
    u_frontier st = (s, path) :: rest
    ∧ isGoalState problem s = false
    ∧ ((s ∈ u_visited st
        ∧ st' = {| u_frontier := rest;
                   u_visited := u_visited st;
                   u_calls := u_calls st |})
       ∨ ((s ∉ u_visited st)
          ∧ st' = {| u_frontier :=
                       rest ++ (extend path <$> getSuccessors problem s);
                     u_visited := {[s]} ∪ u_visited st;
                     u_calls := u_calls st ++ [s] |})).
Proof.
  unfold bfs_step.
  destruct (u_frontier st) as [|[s path] rest] eqn:Hfr; simpl; [done|].
  destruct (isGoalState problem s) eqn:Hgoal; [done|].
  case_bool_decide as Hvis; intros [= <-]; exists s, path, rest.
  - rewrite queue_pushes. split; [done|]. split; [done|]. by right.
  - split; [done|]. split; [done|]. by left.
Qed.

Lemma bfs_return st path calls :
  bfs_step problem st = Return path calls →
  (u_frontier st = [] ∧ path = [])
  ∨ ∃ s rest, u_frontier st = (s, path) :: rest
              ∧ isGoalState problem s = true.
Proof.
  unfold bfs_step.
  destruct (u_frontier st) as [|[s path'] rest] eqn:Hfr; simpl.
  - intros [= <- _]. by left.
  - destruct (isGoalState problem s) eqn:Hgoal.
    + intros [= <- _]. right. by exists s, rest.
    + by case_bool_decide.
Qed.

Lemma bfs_levels_init : bfs_levels problem (bfs_init problem).
Proof.
  exists ∅, 0, [(getStartState problem, [])], []. simpl.
  split; [done|]. split.
  { by intros e ->%list_elem_of_singleton. }
  split; [by intros e ?%elem_of_nil|].
  split; [by intros s ?%not_elem_of_empty|].
  split; [intros s v; by rewrite lookup_empty|]. split.
  - intros actions total Hsol.
    exists (leveled (getStartState problem, [])), actions, total.
    split; [by apply list_elem_of_singleton|]. split; [done|].
    split; [lia|]. unfold e_cost. simpl. lia.
  - intros s v actions total. by rewrite lookup_empty.
Qed.

Lemma bfs_levels_step st st' :
  bfs_levels problem st → bfs_step problem st = Continue st' →
  bfs_levels problem st'.
Proof.
  intros (levels & level0 & now0 & next0 & Hfr & Hnow0 & Hnext0 & Hvis
          & Hlev0 & Hstart & Hrec) Hstep.
  apply bfs_continue in Hstep as (s & path & rest & Hpop & Hgoal & Hcases).
  assert (∃ level now next,
            rest = now ++ next ∧ length path = level
            ∧ (∀ e, e ∈ now → length e.2 = level)
            ∧ (∀ e, e ∈ next → length e.2 = S level)
            ∧ (∀ x v, levels !! x = Some v → (v ≤ Z.of_nat level)%Z))
    as (level & now & next & Hrest & Hlen & Hnow & Hnext & Hlev).
  { rewrite Hpop in Hfr. destruct now0 as [|e now0]; simpl in Hfr.
    - exists (S level0), rest, []. rewrite app_nil_r.
      split; [done|]. split.
      { apply (Hnext0 (s, path)). rewrite <- Hfr. by left. }
      split.
      { intros e He. apply Hnext0. rewrite <- Hfr. by right. }
      split; [by intros e ?%elem_of_nil|].
      intros x v Hv. specialize (Hlev0 _ _ Hv). lia.
    - injection Hfr as <- ->. exists level0, now0, next0.
      split; [done|]. split.
      { apply (Hnow0 (s, path)). by left. }
      split; [|done]. intros e He. apply Hnow0. by right. }
  clear level0 now0 next0 Hfr Hnow0 Hnext0 Hlev0.
  rewrite Hpop in Hstart, Hrec.
  assert (isGoalState (unit_costs problem) (e_state (leveled (s, path)))
          = false) as Hng by done.
  destruct Hcases as [[Hin ->]|[Hnotin ->]].
  - (* the popped state is skipped *)
    assert (∀ e : centry, e ∈ leveled <$> (s, path) :: rest →
              e = leveled (s, path) ∨ e ∈ leveled <$> rest) as Hkeep.
    { intros e. rewrite fmap_cons. by intros [->|?]%elem_of_cons; auto. }
    assert (∃ v0, levels !! e_state (leveled (s, path)) = Some v0
                  ∧ (v0 ≤ e_cost (leveled (s, path)))%Z) as Hv0.
    { destruct (Hvis _ Hin) as [v Hv]. exists v. split; [done|].
      specialize (Hlev _ _ Hv). unfold e_cost. simpl. lia. }
    pose proof (relaxation (unit_costs problem) _ levels _ levels _
                  Hng Hkeep Hv0 (λ x v Hx, or_introl Hx) Hrec) as Hrec'.
    exists levels, level, now, next. simpl.
    repeat (split; [done|]). split; [|done].
    intros actions total Hsol.
    by apply (covers_transfer _ _ _ _ _ _ _ Hkeep Hv0 Hrec'), Hstart.
  - (* the popped state is expanded *)
    set (levels' := <[s := Z.of_nat level]> levels).
    set (frontier' := rest ++ (extend path <$> getSuccessors problem s)).
    assert (∀ e : centry, e ∈ leveled <$> (s, path) :: rest →
              e = leveled (s, path) ∨ e ∈ leveled <$> frontier') as Hkeep.
    { intros e. rewrite fmap_cons. intros [->|?]%elem_of_cons; [by left|].
      right. unfold frontier'. rewrite fmap_app. apply elem_of_app. auto. }
    assert (∃ v0, levels' !! e_state (leveled (s, path)) = Some v0
                  ∧ (v0 ≤ e_cost (leveled (s, path)))%Z) as Hv0.
    { exists (Z.of_nat level). unfold levels', e_state, e_cost. simpl.
      rewrite lookup_insert_eq. split; [done|]. lia. }
    assert (∀ x v, levels' !! x = Some v →
              levels !! x = Some v
              ∨ (x = e_state (leveled (s, path))
                 ∧ v = e_cost (leveled (s, path))
                 ∧ ∀ t, t ∈ getSuccessors (unit_costs problem) x →
                     (∃ e : centry, e ∈ leveled <$> frontier'
                                    ∧ e_state e = t.1.1
                                    ∧ e_cost e = (v + t.2)%Z)
                     ∨ ∃ v1, levels' !! t.1.1 = Some v1
                             ∧ (v1 ≤ v + t.2)%Z)) as Hnew.
    { intros x v. unfold levels'. rewrite lookup_insert.
      case_decide as Hx; [|auto]. subst x. intros [= <-]. right.
      unfold e_state, e_cost. simpl. split; [done|]. split; [lia|].
      intros t ([[s1 a] c] & -> & Ht)%list_elem_of_fmap. left.
      exists (leveled (extend path (s1, a, c))). split.
      - apply list_elem_of_fmap_2. unfold frontier'.
        apply elem_of_app. right. by apply list_elem_of_fmap_2.
      - unfold leveled, extend. simpl. split; [done|].
        rewrite length_app. simpl. lia. }
    pose proof (relaxation (unit_costs problem) _ levels _ levels' _
                  Hng Hkeep Hv0 Hnew Hrec) as Hrec'.
    exists levels', level, now,
      (next ++ (extend path <$> getSuccessors problem s)).
    simpl. split.
    { unfold frontier'. by rewrite Hrest, app_assoc. }
    split; [done|]. split.
    { intros e [He|He]%elem_of_app; [auto|].
      apply list_elem_of_fmap in He as (t & -> & _).
      unfold extend. simpl. rewrite length_app. simpl. lia. }
    split.
    { intros x [->%elem_of_singleton|Hx]%elem_of_union; unfold levels'.
      - rewrite lookup_insert_eq. eauto.
      - rewrite lookup_insert. case_decide; eauto. }
    split.
    { intros x v. unfold levels'. rewrite lookup_insert. case_decide.
      - intros [= <-]. lia.
      - apply Hlev. }
    split; [|done].
    intros actions total Hsol.
    by apply (covers_transfer _ _ _ _ _ _ _ Hkeep Hv0 Hrec'), Hstart.
Qed.

Lemma bfs_steps_levels st :
  steps (bfs_step problem) (bfs_init problem) st → bfs_levels problem st.
Proof.
  apply steps_invariant; [|apply bfs_levels_init].
  intros st1 st2. apply bfs_levels_step.
Qed.

(** The returned path has no more actions than any solution. *)
Lemma bfs_run_fewest fuel path calls actions total :
  run (bfs_step problem) fuel (bfs_init problem) = Returned path calls →
  solves problem (getStartState problem) actions total →
  length path ≤ length actions.
Proof.
  intros (st & Hsteps & Hret)%run_returned Hsol%solves_unit.
  destruct (bfs_steps_levels _ Hsteps)
    as (levels & level & now & next & Hfr & Hnow & Hnext & _ & _ & Hstart & _).
  destruct (Hstart _ _ Hsol)
    as (e & actions' & total' & He & Hsol' & _ & Hle).
  apply solves_unit_total in Hsol'. subst total'.
  apply list_elem_of_fmap in He as (e1 & -> & He1).
  unfold e_cost in Hle. simpl in Hle.
  cut (length path ≤ length e1.2); [lia|].
  apply bfs_return in Hret as [[Hempty _]|(s & rest & Hpop & _)].
  { rewrite Hempty in He1. by apply elem_of_nil in He1. }
  assert ((s, path) ∈ u_frontier st) as Hin by (rewrite Hpop; by left).
  rewrite Hfr in He1, Hpop, Hin.
  destruct now as [|e0 now]; simpl in *.
  - pose proof (Hnext _ He1). pose proof (Hnext _ Hin) as Hlen.
    simpl in Hlen. lia.
  - injection Hpop as -> _.
    pose proof (Hnow (s, path) ltac:(by left)) as Hlen. simpl in Hlen.
    apply elem_of_cons in He1 as [->|[He1|He1]%elem_of_app].
    + done.
    + pose proof (Hnow e1 ltac:(by right)). lia.
    + pose proof (Hnext e1 He1). lia.
Qed.
End BreadthFirstLevels.

(** ** Recorded costs under a consistent heuristic *)

Section RecordedCosts.
Context {State Action : Type} `{Countable State} `{EqDecision Action}.
Variable problem : SearchProblem State Action.
Variable h : heuristic State Action.
Hypothesis well_behaved : deterministic problem.
Hypothesis h_consistent : consistent problem h.
Abbreviation centry := (Z * (State * list Action * Z))%type.
Implicit Types (s target : State) (path : list Action)
  (st : cstate State Action) (e : centry).

Abbreviation astep := (astar_step problem h).
Abbreviation ainit := (astar_init problem h).

Lemma replay_target target s actions :
  replay (with_target problem target) s actions = replay problem s actions.
Proof.
  revert s. induction actions as [|a actions IH]; intros s; simpl; [done|].
  destruct (triple_for a (getSuccessors problem s)) as [[s1 c1]|]; [|done].
  by rewrite IH.
Qed.

Lemma solves_target target s actions total :
  solves (with_target problem target) s actions total
  ↔ replay problem s actions = Some (target, total).
Proof.
  unfold solves. setoid_rewrite replay_target. simpl. split.
  - intros (final & Hrep & ->%bool_decide_eq_true). done.
  - intros Hrep. exists target. split; [done|]. by apply bool_decide_eq_true.
Qed.

(** Consistency, summed along a path. *)
Lemma consistent_along s actions final total :
  reachable problem s →
  replay problem s actions = Some (final, total) →
  (h s problem ≤ total + h final problem)%Z.
Proof.
  revert s total. induction actions as [|a actions IH]; intros s total Hs;
    simpl.
  - intros [= <- <-]. lia.
  - destruct (triple_for a (getSuccessors problem s)) as [[s1 c1]|] eqn:Ha;
      [|done].
    destruct (replay problem s1 actions) as [[s2 c2]|] eqn:Hrest; [|done].
    intros [= -> <-]. apply triple_for_elem in Ha.
    pose proof (h_consistent _ _ _ _ Hs Ha).
    assert (reachable problem s1) as Hs1 by by eapply reach_step.
    pose proof (IH _ _ Hs1 Hrest). lia.
Qed.

(** What an iteration that goes on does to the frontier and the records,
    in the terms of the relaxation argument. *)
Lemma astar_continue_relax st st' :
  astep st = Continue st' →
  ∃ e0,
    e0 ∈ c_frontier st
    ∧ (∀ e, e ∈ c_frontier st → (e0.1 ≤ e.1)%Z)
    ∧ (∀ e, e ∈ c_frontier st → e = e0 ∨ e ∈ c_frontier st')
    ∧ (∃ v0, c_visited st' !! e_state e0 = Some v0 ∧ (v0 ≤ e_cost e0)%Z)
    ∧ (∀ s v, c_visited st' !! s = Some v →
         c_visited st !! s = Some v
         ∨ (s = e_state e0 ∧ v = e_cost e0
            ∧ ∀ t, t ∈ getSuccessors problem s →
                (∃ e, e ∈ c_frontier st' ∧ e_state e = t.1.1
                      ∧ e_cost e = (v + t.2)%Z)
                ∨ ∃ v1, c_visited st' !! t.1.1 = Some v1
                        ∧ (v1 ≤ v + t.2)%Z))
    ∧ (∀ s, c_visited st' !! s = c_visited st !! s
            ∨ (s = e_state e0
               ∧ c_visited st' !! s = Some (e_cost e0)
               ∧ better (c_visited st) s (e_cost e0) = true)).
Proof.
  intros (p & s & path & g & rest & Hperm & Hmin & Hgoal & Hcases)
    %astar_continue.
  exists (p, (s, path, g)). unfold e_state, e_cost. simpl.
  split; [rewrite Hperm; by left|]. split; [done|].
  destruct Hcases as [[Hb ->]|[Hb ->]]; simpl.
  - split; [|split; [|split]].
    + intros e. rewrite Hperm. by intros [->|?]%elem_of_cons; auto.
    + by apply better_false.
    + auto.
    + auto.
  - split; [|split; [|split]].
    + intros e. rewrite Hperm.
      intros [->|?]%elem_of_cons; [by left|]. right.
      apply elem_of_app. auto.
    + exists g. by rewrite lookup_insert_eq.
    + intros s1 v. rewrite lookup_insert. case_decide as Hs1; [|auto].
      subst s1. intros [= <-]. right. do 2 (split; [done|]).
      intros t Ht.
      destruct (better (<[s:=g]> (c_visited st)) t.1.1 (g + t.2)) eqn:Hbt.
      * left. exists (child problem h path g t). split; [|done].
        apply elem_of_app. right. apply elem_of_pushed. eauto.
      * right. by apply better_false.
    + intros s1. rewrite lookup_insert. case_decide as Hs1; [|auto].
      subst s1. by right.
Qed.

Lemma c_exact_init : c_exact problem ainit.
Proof.
  intros target. split.
  - intros _. split.
    + intros actions total Hsol. eexists _, actions, total.
      split; [by apply list_elem_of_singleton|]. split; [done|].
      split; [lia|]. unfold e_cost. simpl. lia.
    + intros s v actions total. simpl. by rewrite lookup_empty.
  - intros v. simpl. by rewrite lookup_empty.
Qed.

Lemma c_exact_step st st' :
  steps astep ainit st → c_exact problem st → astep st = Continue st' →
  c_exact problem st'.
Proof.
  intros Hsteps Hexact Hstep.
  pose proof (c_steps_valid problem h _ well_behaved Hsteps) as Hval.
  destruct (c_steps_reach problem h _ Hsteps) as [Hreach _].
  destruct (c_steps_ordered problem h _ h_consistent Hsteps) as [Hprio _].
  destruct (astar_continue_relax _ _ Hstep)
    as (e0 & Hpop & Hmin & Hkeep & Hv0 & Hnew & Hchange).
  destruct (Hval _ Hpop) as [Hpath0 _].
  intros target. destruct (Hexact target) as [Hopen Hdone].
  destruct (c_visited st !! target) as [v|] eqn:Hrec.
  - (* [target] has a record, which stays *)
    assert (c_visited st' !! target = Some v) as Hsame.
    { destruct (Hchange target) as [->|(-> & Hnow & Hb)]; [done|].
      pose proof (better_true _ _ _ _ Hb Hrec) as Hlt.
      destruct (Hdone v eq_refl) as [_ Hleast].
      specialize (Hleast _ _ Hpath0). lia. }
    split; [by rewrite Hsame|].
    intros v'. rewrite Hsame. intros [= <-]. by apply Hdone.
  - destruct (Hopen eq_refl) as [Hstart Hcover]. clear Hopen Hdone.
    destruct (decide (e_state e0 = target)) as [Heq|Hne].
    + (* [target] gets its first record *)
      assert (c_visited st' !! target = Some (e_cost e0)) as Hnow.
      { destruct (Hchange target) as [Hsame|(_ & Hnow & _)]; [|done].
        destruct Hv0 as (v0 & Hv0 & _).
        rewrite Heq, Hsame, Hrec in Hv0. done. }
      split; [by rewrite Hnow|].
      intros v. rewrite Hnow. intros [= <-]. split.
      * exists (e_path e0). by rewrite <- Heq.
      * intros actions total Hsol%solves_target.
        destruct (Hstart _ _ Hsol)
          as (e & actions' & total' & He & Hsol' & _ & Hle).
        apply solves_target in Hsol'.
        pose proof (consistent_along _ _ _ _ (Hreach _ He) Hsol').
        pose proof (Hmin _ He). pose proof (Hprio _ He) as Hpe.
        pose proof (Hprio _ Hpop) as Hp0. rewrite Heq in Hp0. lia.
    + (* [target] still has no record *)
      assert (c_visited st' !! target = None) as Hstill.
      { destruct (Hchange target) as [->|(-> & _)]; done. }
      assert (isGoalState (with_target problem target) (e_state e0) = false)
        as Hng by by apply bool_decide_eq_false.
      pose proof (relaxation (with_target problem target) _ _ _ _ _
                    Hng Hkeep Hv0 Hnew Hcover) as Hcover'.
      split; [|by rewrite Hstill].
      intros _. split; [|done].
      intros actions total Hsol.
      by apply (covers_transfer _ _ _ _ _ _ _ Hkeep Hv0 Hcover'), Hstart.
Qed.

Lemma c_steps_exact st : steps astep ainit st → c_exact problem st.
Proof.
  intros Hsteps.
  cut (steps astep ainit st ∧ c_exact problem st); [by intros []|].
  revert Hsteps.
  apply (steps_invariant astep
           (λ st, steps astep ainit st ∧ c_exact problem st)).
  - intros st1 st2 [Hsteps Hexact] Hstep. split.
    + clear -Hsteps Hstep. induction Hsteps as [|? ? ? ? ? IH].
      * eapply steps_next; [done|constructor].
      * eapply steps_next; [done|]. by apply IH.
    + by eapply c_exact_step.
  - split; [constructor | apply c_exact_init].
Qed.
End RecordedCosts.

(** ** Further properties of the four searches *)

Section SearchesFurther.
Context {State Action : Type} `{Countable State} `{EqDecision Action}.
Implicit Types (problem : SearchProblem State Action)
  (h : heuristic State Action) (s : State) (path : list Action).

(** X8. On a well-behaved problem the sequence that [depthFirstSearch]
    or [breadthFirstSearch] returns passes through no state twice: the
    states along it, the start state included, are pairwise distinct. *)
Theorem uninformed_path_simple problem :
  deterministic problem →
  (∀ fuel path calls,
     depthFirstSearch fuel problem = Returned path calls →
     ∃ states,
       route problem (getStartState problem) path = Some states
       ∧ NoDup states)
  ∧ (∀ fuel path calls,
       breadthFirstSearch fuel problem = Returned path calls →
       ∃ states,
         route problem (getStartState problem) path = Some states
         ∧ NoDup states).
Proof.
  intros Hdet. split; intros fuel path calls Hrun.
  - by apply (u_run_simple problem _ (dfs_ustep problem) Hdet fuel path calls).
  - by apply (u_run_simple problem _ (bfs_ustep problem) Hdet fuel path calls).
Qed.

(** X9. On a well-behaved problem the sequence that [depthFirstSearch]
    or [breadthFirstSearch] returns has fewer actions than there are
    states in a finite set that holds every reachable state. *)
Theorem uninformed_path_short problem (universe : gset State) :
  deterministic problem →
  (∀ s, reachable problem s → s ∈ universe) →
  (∀ fuel path calls,
     depthFirstSearch fuel problem = Returned path calls →
     length path < size universe)
  ∧ (∀ fuel path calls,
       breadthFirstSearch fuel problem = Returned path calls →
       length path < size universe).
Proof.
  intros Hdet Huniv. split; intros fuel path calls Hrun.
  - by apply (u_run_short problem _ (dfs_ustep problem) Hdet universe
                fuel path calls).
  - by apply (u_run_short problem _ (bfs_ustep problem) Hdet universe
                fuel path calls).
Qed.

(** X10. With a consistent heuristic [aStarSearch] calls [getSuccessors]
    at most once per state, in spite of the re-opening test: the log of
    calls repeats no state after any number of iterations and at the
    return, and is no longer than a finite set that holds every
    reachable state is large. *)
Theorem astar_consistent_expand_once problem h :
  consistent problem h →
  (∀ st, steps (astar_step problem h) (astar_init problem h) st →
     NoDup (c_calls st))
  ∧ (∀ fuel path calls,
       aStarSearch fuel problem h = Returned path calls → NoDup calls)
  ∧ (∀ (universe : gset State) fuel path calls,
       (∀ s, reachable problem s → s ∈ universe) →
       aStarSearch fuel problem h = Returned path calls →
       length calls ≤ size universe).
Proof.
  intros Hcons. split; [|split].
  - intros st. by apply c_steps_once.
  - intros fuel path calls. by apply (c_run_once problem h).
  - intros universe fuel path calls Huniv Hrun.
    destruct (c_return_cases problem h _ _ _ Hrun) as (st & Hsteps & -> & _).
    by apply (c_steps_calls_bounded problem h).
Qed.

(** X11. With non-negative step costs [uniformCostSearch] calls
    [getSuccessors] at most once per state: the log of calls repeats no
    state after any number of iterations and at the return, and is no
    longer than a finite set that holds every reachable state is
    large. *)
Theorem ucs_expand_once problem :
  nonneg_costs problem →
  (∀ st, steps (ucs_step problem) (ucs_init problem) st →
     NoDup (c_calls st))
  ∧ (∀ fuel path calls,
       uniformCostSearch fuel problem = Returned path calls → NoDup calls)
  ∧ (∀ (universe : gset State) fuel path calls,
       (∀ s, reachable problem s → s ∈ universe) →
       uniformCostSearch fuel problem = Returned path calls →
       length calls ≤ size universe).
Proof.
  intros Hcons%null_consistent. split; [|split].
  - intros st Hsteps%ucs_steps_astar.
    by apply (c_steps_once problem nullHeuristic st).
  - intros fuel path calls. rewrite ucs_astar.
    by apply (c_run_once problem nullHeuristic).
  - intros universe fuel path calls Huniv. rewrite ucs_astar. intros Hrun.
    destruct (c_return_cases problem nullHeuristic _ _ _ Hrun)
      as (st & Hsteps & -> & _).
    by apply (c_steps_calls_bounded problem nullHeuristic).
Qed.

(** X12. With a finite reachable state space, non-negative step costs
    and no reachable goal, [uniformCostSearch] and [aStarSearch] return
    the empty sequence only after calling [getSuccessors] on every
    reachable state, and on no other state; [uniformCostSearch] calls it
    exactly once per state, and so does [aStarSearch] when the heuristic
    is consistent. *)
Theorem cost_aware_exhaustive problem h :
  finite_reachable problem → nonneg_costs problem →
  (∀ s, reachable problem s → isGoalState problem s = false) →
  (∃ fuel calls,
     uniformCostSearch fuel problem = Returned [] calls
     ∧ NoDup calls ∧ ∀ s, s ∈ calls ↔ reachable problem s)
  ∧ (∃ fuel calls,
       aStarSearch fuel problem h = Returned [] calls
       ∧ (consistent problem h → NoDup calls)
       ∧ ∀ s, s ∈ calls ↔ reachable problem s).
Proof.
  intros Hfin Hcosts Hnogoal. split.
  - destruct (c_run_exhaustive problem nullHeuristic Hfin Hcosts Hnogoal)
      as (fuel & calls & Hrun & Hall).
    exists fuel, calls. rewrite ucs_astar. split; [done|]. split; [|done].
    apply (c_run_once problem nullHeuristic fuel [] calls); [|done].
    by apply null_consistent.
  - destruct (c_run_exhaustive problem h Hfin Hcosts Hnogoal)
      as (fuel & calls & Hrun & Hall).
    exists fuel, calls. split; [done|]. split; [|done].
    intros Hcons. by apply (c_run_once problem h fuel [] calls).
Qed.

(** X13. [breadthFirstSearch] returns a sequence with the fewest actions:
    no sequence of actions that leads from the start state to a goal
    state is shorter than the returned one, whatever the step costs.
    On a well-behaved problem with a reachable goal the returned
    sequence itself leads to a goal state. *)
Theorem bfs_fewest_actions problem fuel path calls :
  breadthFirstSearch fuel problem = Returned path calls →
  (∀ actions total,
     solves problem (getStartState problem) actions total →
     length path ≤ length actions)
  ∧ (deterministic problem → goal_reachable problem →
     ∃ total, solves problem (getStartState problem) path total).
Proof.
  intros Hrun. split.
  - intros actions total. by apply (bfs_run_fewest problem fuel path calls).
  - intros Hdet Hgoal.
    destruct (u_returned_valid problem _ (bfs_ustep problem)
                fuel path calls Hdet Hrun) as [Hfull Hnil].
    destruct path as [|a path]; [|by apply Hfull].
    destruct (Hnil eq_refl) as [Hstart|Hno]; [|done].
    exists 0%Z, (getStartState problem). done.
Qed.

(** X14. With a consistent heuristic, on a well-behaved problem, every
    cost that [aStarSearch] records for a state is the least cost of
    reaching that state from the start state: some sequence of actions
    reaches the state at that cost and none reaches it more cheaply. *)
Theorem astar_records_least_cost problem h st s v :
  deterministic problem → consistent problem h →
  steps (astar_step problem h) (astar_init problem h) st →
  c_visited st !! s = Some v →
  least_cost_to problem s v.
Proof.
  intros Hdet Hcons Hsteps Hrec.
  by apply (c_steps_exact problem h Hdet Hcons st Hsteps s).
Qed.

(** X15. With non-negative step costs, on a well-behaved problem, every
    cost that [uniformCostSearch] records for a state is the least cost
    of reaching that state from the start state. *)
Theorem ucs_records_least_cost problem st s v :
  deterministic problem → nonneg_costs problem →
  steps (ucs_step problem) (ucs_init problem) st →
  c_visited st !! s = Some v →
  least_cost_to problem s v.
Proof.
  intros Hdet Hcons%null_consistent Hsteps%ucs_steps_astar Hrec.
  by apply (c_steps_exact problem nullHeuristic Hdet Hcons st Hsteps s).
Qed.
End SearchesFurther.

(** ** The further properties at the example problems *)

Lemma steps_after {St State Action} (step : St → outcome St State Action)
    n st :
  steps step st (after step n st).
Proof.
  revert st. induction n as [|n IH]; intros st; simpl; [constructor|].
  destruct (step st) as [| st' |] eqn:Hstep; try constructor.
  eapply steps_next; [done|]. apply IH.
Qed.

Lemma all_nodes (problem : SearchProblem node move) (s : node) :
  reachable problem s → s ∈ ({[nStart; nA; nB; nGoal]} : gset node).
Proof. intros _. destruct s; set_solver. Qed.

Lemma uninformed_complete_witness :
  (∃ fuel path calls total,
     depthFirstSearch fuel diamond = Returned path calls
     ∧ solves diamond (getStartState diamond) path total)
  ∧ (∃ fuel path calls total,
       breadthFirstSearch fuel diamond = Returned path calls
       ∧ solves diamond (getStartState diamond) path total).
Proof.
  apply (uninformed_complete diamond).
  - apply graph_finite.
  - apply diamond_goal_reachable.
  - apply diamond_deterministic.
Defined.

Lemma cost_aware_complete_witness :
  (∃ fuel path calls total,
     uniformCostSearch fuel diamond = Returned path calls
     ∧ solves diamond (getStartState diamond) path total)
  ∧ (∃ fuel path calls total,
       aStarSearch fuel diamond diamond_h = Returned path calls
       ∧ solves diamond (getStartState diamond) path total).
Proof.
  apply (cost_aware_complete diamond diamond_h).
  - apply graph_finite.
  - apply diamond_nonneg.
  - apply diamond_goal_reachable.
  - apply diamond_deterministic.
Defined.

Lemma uninformed_frontier_valid_witness :
  (∀ st s path,
     steps (dfs_step diamond) (dfs_init diamond) st →
     (s, path) ∈ u_frontier st →
     ∃ total,
       replay diamond (getStartState diamond) path = Some (s, total))
  ∧ (∀ st s path,
       steps (bfs_step diamond) (bfs_init diamond) st →
       (s, path) ∈ u_frontier st →
       ∃ total,
         replay diamond (getStartState diamond) path = Some (s, total)).
Proof.
  apply (uninformed_frontier_valid diamond), diamond_deterministic.
Defined.

Lemma cost_aware_frontier_exact_witness :
  (∀ st priority s path g,
     steps (ucs_step diamond) (ucs_init diamond) st →
     (priority, (s, path, g)) ∈ c_frontier st →
     replay diamond (getStartState diamond) path = Some (s, g)
     ∧ priority = g)
  ∧ (∀ st priority s path g,
       steps (astar_step diamond diamond_h) (astar_init diamond diamond_h) st →
       (priority, (s, path, g)) ∈ c_frontier st →
       replay diamond (getStartState diamond) path = Some (s, g)
       ∧ priority = (g + diamond_h s diamond)%Z).
Proof.
  apply (cost_aware_frontier_exact diamond diamond_h), diamond_deterministic.
Defined.

Lemma uninformed_exhaustive_witness :
  (∃ fuel calls,
     depthFirstSearch fuel cyclic = Returned [] calls
     ∧ NoDup calls ∧ ∀ s, s ∈ calls ↔ reachable cyclic s)
  ∧ (∃ fuel calls,
       breadthFirstSearch fuel cyclic = Returned [] calls
       ∧ NoDup calls ∧ ∀ s, s ∈ calls ↔ reachable cyclic s).
Proof.
  apply (uninformed_exhaustive cyclic).
  - apply graph_finite.
  - apply cyclic_no_goal.
Defined.

Lemma uninformed_calls_bounded_witness :
  (∀ st, steps (dfs_step diamond) (dfs_init diamond) st →
     length (u_calls st) ≤ size ({[nStart; nA; nB; nGoal]} : gset node))
  ∧ (∀ st, steps (bfs_step diamond) (bfs_init diamond) st →
       length (u_calls st) ≤ size ({[nStart; nA; nB; nGoal]} : gset node))
  ∧ (∀ fuel path calls,
       depthFirstSearch fuel diamond = Returned path calls →
       length calls ≤ size ({[nStart; nA; nB; nGoal]} : gset node))
  ∧ (∀ fuel path calls,
       breadthFirstSearch fuel diamond = Returned path calls →
       length calls ≤ size ({[nStart; nA; nB; nGoal]} : gset node)).
Proof.
  apply (uninformed_calls_bounded diamond {[nStart; nA; nB; nGoal]}).
  apply all_nodes.
Defined.

Lemma uninformed_path_simple_witness :
  (∀ fuel path calls,
     depthFirstSearch fuel diamond = Returned path calls →
     ∃ states,
       route diamond (getStartState diamond) path = Some states
       ∧ NoDup states)
  ∧ (∀ fuel path calls,
       breadthFirstSearch fuel diamond = Returned path calls →
       ∃ states,
         route diamond (getStartState diamond) path = Some states
         ∧ NoDup states).
Proof. apply (uninformed_path_simple diamond), diamond_deterministic. Defined.

Lemma uninformed_path_short_witness :
  (∀ fuel path calls,
     depthFirstSearch fuel diamond = Returned path calls →
     length path < size ({[nStart; nA; nB; nGoal]} : gset node))
  ∧ (∀ fuel path calls,
       breadthFirstSearch fuel diamond = Returned path calls →
       length path < size ({[nStart; nA; nB; nGoal]} : gset node)).
Proof.
  apply (uninformed_path_short diamond {[nStart; nA; nB; nGoal]}).
  - apply diamond_deterministic.
  - apply all_nodes.
Defined.

Lemma astar_consistent_expand_once_witness :
  (∀ st,
     steps (astar_step diamond diamond_h) (astar_init diamond diamond_h) st →
     NoDup (c_calls st))
  ∧ (∀ fuel path calls,
       aStarSearch fuel diamond diamond_h = Returned path calls →
       NoDup calls)
  ∧ (∀ (universe : gset node) fuel path calls,
       (∀ s, reachable diamond s → s ∈ universe) →
       aStarSearch fuel diamond diamond_h = Returned path calls →
       length calls ≤ size universe).
Proof.
  apply (astar_consistent_expand_once diamond diamond_h).
  apply diamond_h_consistent.
Defined.

Lemma ucs_expand_once_witness :
  (∀ st, steps (ucs_step cyclic) (ucs_init cyclic) st →
     NoDup (c_calls st))
  ∧ (∀ fuel path calls,
       uniformCostSearch fuel cyclic = Returned path calls → NoDup calls)
  ∧ (∀ (universe : gset node) fuel path calls,
       (∀ s, reachable cyclic s → s ∈ universe) →
       uniformCostSearch fuel cyclic = Returned path calls →
       length calls ≤ size universe).
Proof. apply (ucs_expand_once cyclic), cyclic_nonneg. Defined.

Lemma cost_aware_exhaustive_witness :
  (∃ fuel calls,
     uniformCostSearch fuel cyclic = Returned [] calls
     ∧ NoDup calls ∧ ∀ s, s ∈ calls ↔ reachable cyclic s)
  ∧ (∃ fuel calls,
       aStarSearch fuel cyclic diamond_h = Returned [] calls
       ∧ (consistent cyclic diamond_h → NoDup calls)
       ∧ ∀ s, s ∈ calls ↔ reachable cyclic s).
Proof.
  apply (cost_aware_exhaustive cyclic diamond_h).
  - apply graph_finite.
  - apply cyclic_nonneg.
  - apply cyclic_no_goal.
Defined.

Lemma bfs_fewest_actions_witness :
  (∀ actions total,
     solves diamond (getStartState diamond) actions total →
     length [North; East] ≤ length actions)
  ∧ (deterministic diamond → goal_reachable diamond →
     ∃ total, solves diamond (getStartState diamond) [North; East] total).
Proof.
  apply (bfs_fewest_actions diamond 10 [North; East] [nStart; nA; nB]).
  vm_compute. reflexivity.
Defined.

Lemma astar_records_least_cost_witness : least_cost_to diamond nB 2.
Proof.
  apply (astar_records_least_cost diamond diamond_h
           (after (astar_step diamond diamond_h) 2
              (astar_init diamond diamond_h))).
  - apply diamond_deterministic.
  - apply diamond_h_consistent.
  - apply steps_after.
  - vm_compute. reflexivity.
Defined.

Lemma ucs_records_least_cost_witness : least_cost_to diamond nA 1.
Proof.
  apply (ucs_records_least_cost diamond
           (after (ucs_step diamond) 2 (ucs_init diamond))).
  - apply diamond_deterministic.
  - apply diamond_nonneg.
  - apply steps_after.
  - vm_compute. reflexivity.
Defined.
